(** * validate_keymap.py: a shallow embedding and its properties

    The script scans a ZMK keymap for [&behavior ARG] bindings and reports
    arguments that are not known keycodes.  Python's [str] is a sequence of
    Unicode code points, so text is a list of code points here; the parts of
    the interpreter the script relies on (the Unicode database above ASCII,
    the iteration order of sets, pathlib, the file system) are parameters. *)

From Stdlib Require Import String Ascii DecimalString.
From Stdlib Require Import List NArith ZArith Bool Arith Lia.
From Stdlib Require Import Permutation Sorted.
Import ListNotations.

Set Implicit Arguments.

(** ** Python strings *)

Module Py.

Local Open Scope string_scope.
Local Open Scope list_scope.
Local Open Scope N_scope.

Definition char := N.
Definition str := list char.

(** A literal of the source; the literals of the script are ASCII. *)
Definition lit (s : string) : str :=
  map N_of_ascii (list_ascii_of_string s).

Definition char_eqb : char -> char -> bool := N.eqb.

Fixpoint str_eqb (a b : str) : bool :=
  match a, b with
  | [], [] => true
  | x :: a', y :: b' => char_eqb x y && str_eqb a' b'
  | _, _ => false
  end.

(** [x in s] for a set or list of strings. *)
Definition mem (x : str) (s : list str) : bool := existsb (str_eqb x) s.

(** [s.startswith(p)] *)
Fixpoint startswith (s p : str) {struct p} : bool :=
  match p, s with
  | [], _ => true
  | c :: p', x :: s' => char_eqb x c && startswith s' p'
  | _ :: _, [] => false
  end.

(** [sub in s] on strings: some suffix of [s] starts with [sub]. *)
Fixpoint contains (s sub : str) : bool :=
  startswith s sub ||
  match s with
  | [] => false
  | _ :: s' => contains s' sub
  end.

(** [sep.join(l)] *)
Fixpoint join (sep : str) (l : list str) : str :=
  match l with
  | [] => []
  | [x] => x
  | x :: l' => x ++ sep ++ join sep l'
  end.

(** [s.split('\n')]: never empty, one more piece than there are newlines. *)
Fixpoint split_nl (s : str) : list str :=
  match s with
  | [] => [[]]
  | c :: s' =>
      if char_eqb c 10 then [] :: split_nl s'
      else match split_nl s' with
           | l :: ls => (c :: l) :: ls
           | [] => [[c]]
           end
  end.

(** [enumerate(l, start)] *)
Definition enumerate (A : Type) (start : nat) (l : list A) : list (nat * A) :=
  combine (seq start (length l)) l.

(** [str(n)] of a non-negative integer. *)
Definition str_of_nat (n : nat) : str :=
  lit (NilZero.string_of_uint (Nat.to_uint n)).

(** Code-point order on strings, the order of [sorted] on a list of [str]. *)
Fixpoint str_leb (a b : str) : bool :=
  match a, b with
  | [], _ => true
  | _ :: _, [] => false
  | x :: a', y :: b' => (x <? y) || ((x =? y) && str_leb a' b')
  end.

Definition str_le (a b : str) : Prop := str_leb a b = true.

Fixpoint insert_sorted (x : str) (l : list str) : list str :=
  match l with
  | [] => [x]
  | y :: l' => if str_leb x y then x :: l else y :: insert_sorted x l'
  end.

(** [sorted(l)]: a stable sort; stable insertion from the right is one. *)
Definition sorted (l : list str) : list str :=
  fold_right insert_sorted [] l.

(** The interpreter's Unicode database above ASCII. *)
Class UnicodeData := {
  uni_isspace : char -> bool;
  uni_isalnum : char -> bool
}.

Section Classes.
Context {U : UnicodeData}.

Definition between (lo hi c : char) : bool := (lo <=? c) && (c <=? hi).

(** [Py_UNICODE_ISSPACE]: what [str.strip()] strips and [\s] matches. *)
Definition isspace (c : char) : bool :=
  if c <? 128
  then between 9 13 c || between 28 32 c
  else uni_isspace c.

Definition isalnum (c : char) : bool :=
  if c <? 128
  then between 48 57 c || between 65 90 c || between 97 122 c
  else uni_isalnum c.

(** [\w] in a [str] pattern. *)
Definition is_word (c : char) : bool := isalnum c || char_eqb c 95.

(** [[A-Za-z0-9_]] *)
Definition is_ascii_word (c : char) : bool :=
  between 65 90 c || between 97 122 c || between 48 57 c || char_eqb c 95.

Fixpoint lstrip (s : str) : str :=
  match s with
  | [] => []
  | c :: s' => if isspace c then lstrip s' else s
  end.

Definition rstrip (s : str) : str := rev (lstrip (rev s)).

(** [s.strip()] *)
Definition strip (s : str) : str := rstrip (lstrip s).

End Classes.

End Py.

(** ** The fragment of [re] the script uses

    A pattern is a sequence of literal characters and greedy [cls+]
    repetitions, capturing or not; matching backtracks as [re] does, the
    longest repetition first. *)

Module Re.
Import Py.

Inductive item :=
| Lit (c : char)
| Plus (capture : bool) (cls : char -> bool).

Definition pattern := list item.

Definition advance (k : nat) (r : option (list str * nat)) : option (list str * nat) :=
  match r with
  | Some (gs, n) => Some (gs, k + n)
  | None => None
  end.

(** [cls+] followed by the rest of the pattern, [k]: take one more character
    of the class whenever that leads to a match, stop and hand over to [k]
    otherwise.  The result is the repetition's text, the groups of the rest
    and the length of the whole. *)
Fixpoint greedy (cls : char -> bool) (k : str -> option (list str * nat))
  (s : str) : option (str * list str * nat) :=
  match s with
  | x :: s' =>
      if cls x then
        match greedy cls k s' with
        | Some (run, gs, n) => Some (x :: run, gs, S n)
        | None =>
            match k s' with
            | Some (gs, n) => Some ([x], gs, S n)
            | None => None
            end
        end
      else None
  | [] => None
  end.

(** [match_here r s]: the groups and the length of the match of [r] that is
    anchored at the start of [s], if there is one. *)
Fixpoint match_here (r : pattern) (s : str) : option (list str * nat) :=
  match r with
  | [] => Some ([], 0)
  | Lit c :: r' =>
      match s with
      | x :: s' => if char_eqb x c then advance 1 (match_here r' s') else None
      | [] => None
      end
  | Plus cap cls :: r' =>
      match greedy cls (match_here r') s with
      | Some (run, gs, n) => Some ((if cap then [run] else []) ++ gs, n)
      | None => None
      end
  end.

(** A match object: [start()], [end()] and the captured groups. *)
Record Match := { m_start : nat; m_end : nat; m_groups : list str }.

(** [m.group(k)] for [k >= 1]. *)
Definition group (m : Match) (k : nat) : str := nth (pred k) (m_groups m) [].

(** The scan of [finditer] from position [pos]; [skip] characters are still
    covered by the previous match. *)
Fixpoint scan (r : pattern) (pos skip : nat) (s : str) : list Match :=
  match skip with
  | S k =>
      match s with
      | [] => []
      | _ :: s' => scan r (S pos) k s'
      end
  | O =>
      match match_here r s with
      | Some (gs, n) =>
          {| m_start := pos; m_end := pos + n; m_groups := gs |} ::
          match s with
          | [] => []
          | _ :: s' => scan r (S pos) (pred n) s'
          end
      | None =>
          match s with
          | [] => []
          | _ :: s' => scan r (S pos) 0 s'
          end
      end
  end.

(** [re.finditer(r, s)] *)
Definition finditer (r : pattern) (s : str) : list Match := scan r 0 0 s.

(** One match lies wholly to the left of another. *)
Definition before (a b : Match) : Prop :=
  m_start a < m_start b /\ m_end a <= m_start b.

(** A character an item of a pattern cannot consume. *)
Definition blocks (c : char) (it : item) : Prop :=
  match it with
  | Lit x => char_eqb c x = false
  | Plus _ cls => cls c = false
  end.

End Re.

(** ** Effects: standard output, the file system and [sys.exit] *)

Module Eff.
Import Py.

Inductive event :=
| Print (line : str)          (* [print(line)] returned *)
| Exists (path : str)         (* [Path.exists()] was called *)
| ReadText (path : str).      (* [Path.read_text()] was called *)

(** How a computation ends: with a value, with [sys.exit(code)], or with an
    exception nobody catches.  [Exit code] says that the script called
    [sys.exit(code)]; the interpreter then shuts down and hands [code] to
    the operating system, or 120 when it cannot flush standard output. *)
Inductive result (A : Type) :=
| Ret (a : A)
| Exit (code : Z)
| Raise.
Arguments Exit {A} code.
Arguments Raise {A}.

(** What the script sees of the interpreter and the machine it runs on. *)
Record World := {
  (** the order in which a set built from these elements is iterated *)
  set_iter : list str -> list str;
  (** [str(Path(arg))] *)
  path_str : str -> str;
  (** [Path(arg).exists()], [None] when it raises *)
  path_exists : str -> option bool;
  (** [Path(arg).read_text()], [None] when it raises *)
  read_text : str -> option str;
  (** whether [print(line)] returns, after the lines printed so far; it
      raises otherwise (a line the stream cannot encode, a stream that is
      closed or full) *)
  stdout_write : list str -> str -> bool
}.

(** A set iterates over its elements, each once, in some order. *)
Definition sets_ok (w : World) : Prop :=
  forall l, Permutation (set_iter w l) (nodup (list_eq_dec N.eq_dec) l).

(** The lines a trace prints. *)
Definition printed (t : list event) : list str :=
  flat_map (fun e => match e with
                     | Print l => [l]
                     | _ => []
                     end) t.

(** A computation takes the trace so far and gives the trace it leaves and
    how it ends. *)
Definition IO (A : Type) : Type := list event -> list event * result A.

Definition ret (A : Type) (a : A) : IO A := fun t => (t, Ret a).

Definition bind (A B : Type) (m : IO A) (k : A -> IO B) : IO B :=
  fun t =>
    match m t with
    | (t', Ret a) => k a t'
    | (t', Exit c) => (t', Exit c)
    | (t', Raise) => (t', Raise)
    end.

Definition emit (e : event) : IO unit := fun t => (t ++ [e], Ret tt).
Definition sys_exit (A : Type) (code : Z) : IO A := fun t => (t, Exit code).
Definition raise (A : Type) : IO A := fun t => (t, Raise).

(** [print(line)]: the line goes out, or the call raises and nothing of the
    line does. *)
Definition print (w : World) (line : str) : IO unit :=
  fun t =>
    if stdout_write w (printed t) line
    then (t ++ [Print line], Ret tt)
    else (t, Raise).

Fixpoint for_each (A : Type) (l : list A) (body : A -> IO unit) : IO unit :=
  match l with
  | [] => ret tt
  | x :: l' => bind (body x) (fun _ => for_each l' body)
  end.

(** A computation run from the start of the process. *)
Definition run (A : Type) (m : IO A) : list event * result A := m [].
Definition trace (A : Type) (m : IO A) : list event := fst (run m).
Definition outcome (A : Type) (m : IO A) : result A := snd (run m).

End Eff.

Declare Scope io_scope.
Delimit Scope io_scope with io.
Notation "x <- m ;; k" := (Eff.bind m (fun x => k))
  (at level 61, m at next level, right associativity) : io_scope.
Notation "m ;; k" := (Eff.bind m (fun _ => k))
  (at level 61, right associativity) : io_scope.

(** ** The script *)

Module Keymap.
Import Py Re Eff.

Local Open Scope string_scope.
Local Open Scope list_scope.

(** [range(a, b)] *)
Definition range (a b : nat) : list nat := seq a (b - a).

(** [chr(c)] *)
Definition chr (c : nat) : str := [N.of_nat c].

(** [VALID_KEYCODES], in the order of the display. *)
Definition VALID_KEYCODES : list str :=
  (* Letters *)
  map chr (range 65 (90 + 1)) ++
  (* Numbers *)
  map (fun i => lit "N" ++ str_of_nat i) (range 0 10) ++
  map (fun i => lit "NUMBER_" ++ str_of_nat i) (range 0 10) ++
  (* Function keys *)
  map (fun i => lit "F" ++ str_of_nat i) (range 1 25) ++
  map lit [
    (* Modifiers *)
    "LSHFT"; "RSHFT"; "LSHIFT"; "RSHIFT"; "LCTRL"; "RCTRL"; "LALT"; "RALT";
    "LGUI"; "RGUI"; "LMETA"; "RMETA"; "LWIN"; "RWIN"; "LCMD"; "RCMD";
    (* Navigation *)
    "UP"; "DOWN"; "LEFT"; "RIGHT"; "HOME"; "END"; "PG_UP"; "PG_DN";
    "PAGE_UP"; "PAGE_DOWN"; "INS"; "INSERT"; "DEL"; "DELETE";
    (* Common keys *)
    "SPACE"; "RET"; "RETURN"; "ENTER"; "TAB"; "ESC"; "ESCAPE";
    "BSPC"; "BACKSPACE"; "CAPS"; "CAPSLOCK"; "CAPS_LOCK";
    "PSCRN"; "PRINTSCREEN"; "PRINT_SCREEN"; "SLCK"; "SCROLLLOCK"; "SCROLL_LOCK";
    "PAUSE_BREAK"; "PAUSE";
    (* Punctuation *)
    "MINUS"; "EQUAL"; "LBKT"; "RBKT"; "LBRC"; "RBRC";
    "LEFT_BRACKET"; "RIGHT_BRACKET"; "LEFT_BRACE"; "RIGHT_BRACE";
    "BSLH"; "BACKSLASH"; "SEMI"; "SEMICOLON"; "SQT"; "APOS"; "APOSTROPHE";
    "GRAVE"; "COMMA"; "DOT"; "PERIOD"; "SLASH"; "FSLH";
    "TILDE"; "EXCL"; "EXCLAMATION"; "AT"; "AT_SIGN"; "HASH"; "POUND";
    "DLLR"; "DOLLAR"; "PRCNT"; "PERCENT"; "CARET"; "AMPS"; "AMPERSAND";
    "ASTRK"; "ASTERISK"; "STAR"; "LPAR"; "RPAR";
    "LEFT_PARENTHESIS"; "RIGHT_PARENTHESIS"; "UNDER"; "UNDERSCORE";
    "PLUS"; "PIPE"; "COLON"; "DQT"; "DOUBLE_QUOTES"; "LT"; "GT";
    "QMARK"; "QUESTION" ] ++
  (* Numpad *)
  map (fun i => lit "KP_N" ++ str_of_nat i) (range 0 10) ++
  map lit [
    "KP_PLUS"; "KP_MINUS"; "KP_MULTIPLY";
    "KP_DIVIDE"; "KP_DOT"; "KP_ENTER"; "KP_EQUAL"; "KP_NUMLOCK"; "NUMLOCK";
    (* Consumer/Media controls *)
    "C_MUTE"; "C_VOL_UP"; "C_VOL_DN"; "C_VOLUME_UP"; "C_VOLUME_DOWN";
    "C_PP"; "C_PLAY_PAUSE"; "C_PLAY"; "C_PAUSE"; "C_STOP";
    "C_NEXT"; "C_PREV"; "C_PREVIOUS"; "C_FF"; "C_RW"; "C_FAST_FORWARD"; "C_REWIND";
    "C_BRI_UP"; "C_BRI_DN"; "C_BRIGHTNESS_INC"; "C_BRIGHTNESS_DEC";
    "C_AL_CALC"; "C_AL_WWW"; "C_AL_MAIL"; "C_AL_FILES";
    "C_AC_SEARCH"; "C_AC_HOME"; "C_AC_BACK"; "C_AC_FORWARD"; "C_AC_REFRESH";
    (* Mouse scroll *)
    "SCRL_UP"; "SCRL_DOWN"; "SCRL_LEFT"; "SCRL_RIGHT";
    (* Mouse move *)
    "MOVE_UP"; "MOVE_DOWN"; "MOVE_LEFT"; "MOVE_RIGHT";
    (* Mouse buttons *)
    "LCLK"; "RCLK"; "MCLK"; "MB1"; "MB2"; "MB3"; "MB4"; "MB5";
    (* Bluetooth *)
    "BT_CLR"; "BT_CLR_ALL"; "BT_NXT"; "BT_PRV" ] ++
  map (fun i => lit "BT_SEL " ++ str_of_nat i) (range 0 5) ++
  map lit [
    (* Output selection *)
    "OUT_USB"; "OUT_BLE"; "OUT_TOG";
    (* Power *)
    "C_PWR"; "C_POWER"; "C_SLEEP"; "C_AL_LOCK";
    (* Reset *)
    "RESET"; "BOOTLOADER" ].

(** [VALID_BEHAVIORS]: declared by the script and consulted nowhere. *)
Definition VALID_BEHAVIORS : list str :=
  map lit [
    "trans"; "none"; "kp"; "mo"; "lt"; "mt"; "sk"; "sl"; "tog"; "to";
    "bt"; "mkp"; "msc"; "mmv"; "mms"; "out"; "rgb_ug"; "ext_power";
    "caps_word"; "key_repeat"; "reset"; "bootloader"; "sys_reset" ].

(** A binding: line number, behavior, argument. *)
Definition binding : Type := (nat * str * str)%type.

(** The binding a match object stands for on line [i]. *)
Definition binding_of (i : nat) (m : Match) : binding :=
  (i, group m 1, group m 2).

Section Script.
Context {U : UnicodeData}.

(** [r'&(\w+)\s+([A-Za-z0-9_]+)'] *)
Definition binding_re : pattern :=
  [Lit 38%N; Plus true is_word; Plus false isspace; Plus true is_ascii_word].

(** The test that makes the loop of [extract_bindings] [continue]. *)
Definition is_comment (line : str) : bool :=
  startswith (strip line) (lit "//") || startswith (strip line) (lit "/*").

(** One round of the inner loop: [bindings.append((i, behavior, arg))]. *)
Definition append_match (i : nat) (bindings : list binding) (m : Match)
  : list binding :=
  let behavior := group m 1 in
  let arg := group m 2 in
  bindings ++ [(i, behavior, arg)].

(** One round of the loop over the lines. *)
Definition extract_line (bindings : list binding) (il : nat * str)
  : list binding :=
  let (i, line) := il in
  if is_comment line then bindings
  else fold_left (append_match i) (finditer binding_re line) bindings.

Definition extract_bindings (content : str) : list binding :=
  let bindings := [] in
  let lines := split_nl content in
  fold_left extract_line (enumerate 1 lines) bindings.

Definition valid_mkp : list str :=
  map lit ["LCLK"; "RCLK"; "MCLK"; "MB1"; "MB2"; "MB3"; "MB4"; "MB5"].
Definition valid_msc : list str :=
  map lit ["SCRL_UP"; "SCRL_DOWN"; "SCRL_LEFT"; "SCRL_RIGHT"].
Definition valid_mmv : list str :=
  map lit ["MOVE_UP"; "MOVE_DOWN"; "MOVE_LEFT"; "MOVE_RIGHT"].

Variable w : World.

(** [f"Line {n}: <what> '{arg}' (valid: {', '.join(sorted(s))})"] *)
Definition invalid_msg (what : string) (line_num : nat) (arg : str)
  (s : list str) : str :=
  lit "Line " ++ str_of_nat line_num ++ lit ": " ++ lit what ++ lit " '" ++
  arg ++ lit "' (valid: " ++ join (lit ", ") (sorted (set_iter w s)) ++ lit ")".

(** One round of the loop of [validate_keymap] over the bindings. *)
Definition check_binding (errors : list str) (b : binding) : list str :=
  let '(line_num, behavior, arg) := b in
  if str_eqb behavior (lit "kp") then
    if negb (mem arg VALID_KEYCODES) then
      let suggestions := [] in
      let suggestions :=
        if contains arg (lit "VOL_MUTE")
        then suggestions ++ [lit "C_MUTE"] else suggestions in
      let suggestions :=
        if contains arg (lit "VOL_DOWN")
        then suggestions ++ [lit "C_VOL_DN"] else suggestions in
      let msg :=
        lit "Line " ++ str_of_nat line_num ++ lit ": Unknown keycode '" ++
        arg ++ lit "'" in
      let msg :=
        match suggestions with
        | [] => msg
        | _ :: _ =>
            msg ++ lit " (did you mean: " ++ join (lit ", ") suggestions ++
            lit "?)"
        end in
      errors ++ [msg]
    else errors
  else if str_eqb behavior (lit "mkp") then
    if negb (mem arg valid_mkp)
    then errors ++ [invalid_msg "Invalid mouse button" line_num arg valid_mkp]
    else errors
  else if str_eqb behavior (lit "msc") then
    if negb (mem arg valid_msc)
    then errors ++ [invalid_msg "Invalid scroll code" line_num arg valid_msc]
    else errors
  else if str_eqb behavior (lit "mmv") then
    if negb (mem arg valid_mmv)
    then errors ++ [invalid_msg "Invalid mouse move" line_num arg valid_mmv]
    else errors
  else errors.

(** The part of [validate_keymap] after the file is read. *)
Definition validate_content (content : str) : list str :=
  let bindings := extract_bindings content in
  let errors := [] in
  fold_left check_binding bindings errors.

Definition path_read_text (filepath : str) : IO str :=
  (emit (ReadText filepath) ;;
   match read_text w filepath with
   | Some content => ret content
   | None => raise str
   end)%io.

Definition path_exists_ (filepath : str) : IO bool :=
  (emit (Exists filepath) ;;
   match path_exists w filepath with
   | Some found => ret found
   | None => raise bool
   end)%io.

Definition validate_keymap (filepath : str) : IO (list str) :=
  (content <- path_read_text filepath ;;
   ret (validate_content content))%io.

Definition usage_msg : str := lit "Usage: validate_keymap.py <keymap_file>".
Definition failed_msg : str := 10007%N :: lit " Keymap validation failed:".
Definition valid_msg : str := 10003%N :: lit " Keymap keycodes are valid".

Definition main (argv : list str) : IO unit :=
  ((if (length argv <? 2)%nat
    then print w usage_msg ;; sys_exit unit 1
    else ret tt) ;;
   let filepath := nth 1 argv [] in
   found <- path_exists_ filepath ;;
   (if negb found
    then print w (lit "Error: File not found: " ++ path_str w filepath) ;;
         sys_exit unit 1
    else ret tt) ;;
   errors <- validate_keymap filepath ;;
   match errors with
   | _ :: _ =>
       print w failed_msg ;;
       for_each errors (fun error => print w (lit "  " ++ error)) ;;
       sys_exit unit 1
   | [] =>
       print w valid_msg ;;
       sys_exit unit 0
   end)%io.

End Script.

End Keymap.

(** ** A concrete interpreter and machine, for running the model *)

Module Sample.
Import Py Eff.

Local Open Scope string_scope.
Local Open Scope list_scope.

(** The Unicode database restricted to Latin-1; nothing above it is a space
    or a letter here. *)
Definition latin1 : UnicodeData := {|
  uni_isspace c := (N.eqb c 133 || N.eqb c 160)%N;
  uni_isalnum c :=
    (existsb (N.eqb c) [170; 178; 179; 181; 185; 186; 188; 189; 190] ||
     between 192 214 c || between 216 246 c || between 248 255 c)%N
|}.

(** A machine with one keymap file and a standard output that takes every
    line, whose sets iterate in display order (duplicates dropped) or, for
    [rev_world], in the opposite order. *)
Definition one_file (order : list str -> list str) (name content : str)
  : World := {|
  set_iter l := order (nodup (list_eq_dec N.eq_dec) l);
  path_str p := p;
  path_exists p := Some (str_eqb p name);
  read_text p := if str_eqb p name then Some content else None;
  stdout_write _ _ := true
|}.

Definition world (name content : str) : World :=
  one_file (fun l => l) name content.
Definition rev_world (name content : str) : World :=
  one_file (@rev str) name content.

End Sample.

(** ** Vocabulary of the properties *)

Module Vocabulary.
Import Py.

Local Open Scope string_scope.
Local Open Scope list_scope.

(** [sub] occurs somewhere inside [arg]. *)
Definition occurs (sub : string) (arg : str) : Prop :=
  exists pre post, arg = pre ++ lit sub ++ post.

(** The ASCII letters, digits and the underscore. *)
Definition ascii_word_char (c : char) : Prop :=
  (65 <= c <= 90 \/ 97 <= c <= 122 \/ 48 <= c <= 57 \/ c = 95)%N.

(** A text made of [n] copies of [&kp ZZZZ ] on one line. *)
Definition repeated_binding (n : nat) : str :=
  concat (repeat (lit "&kp ZZZZ ") n).

End Vocabulary.

(** ** Further vocabulary: where a run of a class ends, what passes the checks *)

Module Terms.
Import Py Eff Keymap.

Local Open Scope string_scope.
Local Open Scope list_scope.

(** [s] is empty or starts with a character outside the class. *)
Definition stops (cls : char -> bool) (s : str) : Prop :=
  match s with
  | [] => True
  | c :: _ => cls c = false
  end.

(** What [validate_keymap] asks of a binding. *)
Definition acceptable (b : binding) : Prop :=
  let '(_, behavior, arg) := b in
  (behavior = lit "kp" -> In arg VALID_KEYCODES) /\
  (behavior = lit "mkp" -> In arg valid_mkp) /\
  (behavior = lit "msc" -> In arg valid_msc) /\
  (behavior = lit "mmv" -> In arg valid_mmv).

(** The line number of a binding. *)
Definition line_of (b : binding) : nat := fst (fst b).

(** The events of a trace that touch the file system, as the paths touched. *)
Definition touched (t : list event) : list str :=
  flat_map (fun e => match e with
                     | Print _ => []
                     | Exists p => [p]
                     | ReadText p => [p]
                     end) t.

(** A binding moved [k] lines down. *)
Definition moved (k : nat) (b : binding) : binding :=
  let '(line_num, behavior, arg) := b in (k + line_num, behavior, arg).

(** A machine with one file that is there and cannot be read. *)
Definition locked_file (name : str) : World := {|
  set_iter l := nodup (list_eq_dec N.eq_dec) l;
  path_str p := p;
  path_exists p := Some (str_eqb p name);
  read_text p := None;
  stdout_write _ _ := true
|}.

(** The lines of [lines] that standard output takes, one after the other,
    up to the first it refuses; [before] are the lines printed earlier. *)
Fixpoint accepted (w : World) (before lines : list str) : list str :=
  match lines with
  | [] => []
  | l :: ls =>
      if stdout_write w before l
      then l :: accepted w (before ++ [l]) ls
      else []
  end.

(** Standard output takes every line of [lines]. *)
Fixpoint takes_all (w : World) (before lines : list str) : bool :=
  match lines with
  | [] => true
  | l :: ls => stdout_write w before l && takes_all w (before ++ [l]) ls
  end.

(** A run that has left the trace [t], without a print in it, goes on to
    print [lines] and to leave with [sys.exit(code)]: the lines go out up to
    the first that standard output refuses, and the exception of that print
    ends the run. *)
Definition reporting (w : World) (t : list event) (lines : list str)
  (code : Z) : list event * result unit :=
  (t ++ map Print (accepted w [] lines),
   if takes_all w [] lines then Exit code else Raise).

(** What [main] sets out to print for a list of diagnostics. *)
Definition report_lines (errors : list str) : list str :=
  match errors with
  | [] => [valid_msg]
  | _ :: _ => failed_msg :: map (fun error => lit "  " ++ error) errors
  end.

(** The status [main] leaves with for a list of diagnostics. *)
Definition report_code (errors : list str) : Z :=
  match errors with
  | [] => 0%Z
  | _ :: _ => 1%Z
  end.

(** A machine with one keymap file whose standard output encodes ASCII
    only. *)
Definition ascii_stdout (name content : str) : World := {|
  set_iter l := nodup (list_eq_dec N.eq_dec) l;
  path_str p := p;
  path_exists p := Some (str_eqb p name);
  read_text p := if str_eqb p name then Some content else None;
  stdout_write _ line := forallb (fun c => c <? 128)%N line
|}.

End Terms.

(** ** Facts about the string operations *)

Module PyFacts.
Import Py.

Local Open Scope list_scope.

Lemma str_eqb_eq (a b : str) : str_eqb a b = true <-> a = b.
Proof.
  revert b; induction a as [|x a IH]; intros [|y b]; simpl;
    try (split; [discriminate|congruence]); try tauto.
  unfold char_eqb. rewrite andb_true_iff, N.eqb_eq, IH.
  split; [intros [-> ->]; reflexivity | intros [= -> ->]; auto].
Qed.

Lemma str_eqb_refl (a : str) : str_eqb a a = true.
Proof. apply str_eqb_eq; reflexivity. Qed.

Lemma str_eqb_neq (a b : str) : str_eqb a b = false <-> a <> b.
Proof.
  rewrite <- str_eqb_eq. destruct (str_eqb a b); split; congruence.
Qed.

Lemma mem_In (x : str) (s : list str) : mem x s = true <-> In x s.
Proof.
  unfold mem. rewrite existsb_exists. split.
  - intros (y & Hy & E). apply str_eqb_eq in E. subst; assumption.
  - intros H. exists x. split; [assumption | apply str_eqb_refl].
Qed.

Lemma mem_not_In (x : str) (s : list str) : mem x s = false <-> ~ In x s.
Proof.
  rewrite <- mem_In. destruct (mem x s); split; congruence.
Qed.

Lemma startswith_prefix (s p : str) :
  startswith s p = true <-> exists post, s = p ++ post.
Proof.
  revert s; induction p as [|c p IH]; intros s; simpl.
  - split; [exists s; reflexivity | reflexivity].
  - destruct s as [|x s].
    + split; [discriminate | intros (post & E); discriminate].
    + unfold char_eqb. rewrite andb_true_iff, N.eqb_eq, IH. split.
      * intros (-> & post & ->). exists post; reflexivity.
      * intros (post & [= -> ->]). split; [reflexivity | exists post; reflexivity].
Qed.

(** [sub in s] holds exactly when [sub] occurs somewhere inside [s]. *)
Lemma contains_infix (s sub : str) :
  contains s sub = true <-> exists pre post, s = pre ++ sub ++ post.
Proof.
  induction s as [|x s IH].
  - simpl. rewrite orb_false_r, startswith_prefix. split.
    + intros (post & E). exists [], post. exact E.
    + intros (pre & post & E). destruct pre as [|? ?]; [|discriminate].
      exists post. exact E.
  - cbn [contains]. rewrite orb_true_iff, startswith_prefix, IH. split.
    + intros [(post & E) | (pre & post & E)].
      * exists [], post. exact E.
      * exists (x :: pre), post. simpl. rewrite E. reflexivity.
    + intros (pre & post & E). destruct pre as [|y pre].
      * left. exists post. exact E.
      * right. injection E as -> E. exists pre, post. exact E.
Qed.

Lemma fold_left_snoc (A B : Type) (f : B -> list A) (l : list B) (acc : list A) :
  fold_left (fun acc x => acc ++ f x) l acc = acc ++ flat_map f l.
Proof.
  revert acc; induction l as [|x l IH]; intros acc; simpl.
  - symmetry; apply app_nil_r.
  - rewrite IH, app_assoc. reflexivity.
Qed.

(** A loop whose rounds only append is a [flat_map] of its rounds. *)
Lemma fold_left_appending (A B : Type) (step : list A -> B -> list A)
  (l : list B) (acc : list A) :
  (forall acc x, step acc x = acc ++ step [] x) ->
  fold_left step l acc = acc ++ flat_map (step []) l.
Proof.
  intros H. revert acc; induction l as [|x l IH]; intros acc; simpl.
  - symmetry; apply app_nil_r.
  - rewrite IH, H, app_assoc. reflexivity.
Qed.

End PyFacts.

(** ** [sorted] sorts, and its result does not depend on the order of its input *)

Module SortFacts.
Import Py.

Local Open Scope list_scope.

Lemma str_leb_step (x y : char) (a b : str) :
  str_leb (x :: a) (y :: b) = true <->
  (x < y)%N \/ (x = y /\ str_leb a b = true).
Proof.
  simpl. rewrite orb_true_iff, andb_true_iff, N.ltb_lt, N.eqb_eq. tauto.
Qed.

Lemma str_le_total (a b : str) : str_le a b \/ str_le b a.
Proof.
  unfold str_le. revert b; induction a as [|x a IH]; intros [|y b];
    try (left; reflexivity); try (right; reflexivity).
  rewrite !str_leb_step.
  destruct (N.lt_trichotomy x y) as [H | [H | H]]; [tauto | | tauto].
  destruct (IH b); [left | right]; right; auto.
Qed.

Lemma str_le_trans (a b c : str) : str_le a b -> str_le b c -> str_le a c.
Proof.
  unfold str_le. revert b c; induction a as [|x a IH]; intros [|y b] [|z c];
    try reflexivity; try discriminate.
  rewrite !str_leb_step. intros [H1 | [-> H1]] [H2 | [-> H2]].
  - left; lia.
  - left; assumption.
  - left; assumption.
  - right; split; [reflexivity | eapply IH; eassumption].
Qed.

Lemma str_le_antisym (a b : str) : str_le a b -> str_le b a -> a = b.
Proof.
  unfold str_le. revert b; induction a as [|x a IH]; intros [|y b];
    try reflexivity; try discriminate.
  rewrite !str_leb_step. intros [H1 | [-> H1]] [H2 | [E H2]]; try lia.
  f_equal; auto.
Qed.

Lemma insert_sorted_perm (x : str) (l : list str) :
  Permutation (insert_sorted x l) (x :: l).
Proof.
  induction l as [|y l IH]; simpl; [reflexivity|].
  destruct (str_leb x y); [reflexivity|].
  rewrite IH. apply perm_swap.
Qed.

Lemma sorted_perm (l : list str) : Permutation (sorted l) l.
Proof.
  induction l as [|x l IH]; simpl; [reflexivity|].
  rewrite insert_sorted_perm, IH. reflexivity.
Qed.

Lemma insert_sorted_ordered (x : str) (l : list str) :
  StronglySorted str_le l -> StronglySorted str_le (insert_sorted x l).
Proof.
  induction 1 as [|y l Hl IH Hy]; simpl.
  - repeat constructor.
  - destruct (str_leb x y) eqn:E.
    + constructor; [constructor; assumption|].
      constructor; [exact E|].
      eapply Forall_impl; [|exact Hy].
      intros z Hz. eapply str_le_trans; eassumption.
    + constructor; [exact IH|].
      apply (Permutation_Forall (Permutation_sym (insert_sorted_perm x l))).
      constructor; [|exact Hy].
      destruct (str_le_total x y) as [H | H]; [unfold str_le in H; congruence | exact H].
Qed.

Lemma sorted_ordered (l : list str) : StronglySorted str_le (sorted l).
Proof.
  induction l as [|x l IH]; simpl; [constructor|].
  apply insert_sorted_ordered, IH.
Qed.

(** Two ordered lists with the same elements are the same list. *)
Lemma ordered_unique (l1 l2 : list str) :
  StronglySorted str_le l1 -> StronglySorted str_le l2 ->
  Permutation l1 l2 -> l1 = l2.
Proof.
  intros H1; revert l2; induction H1 as [|x l1 Hl1 IH Hx]; intros l2 H2 P.
  - apply Permutation_nil in P. congruence.
  - destruct H2 as [|y l2 Hl2 Hy].
    + apply Permutation_sym, Permutation_nil in P. discriminate.
    + assert (E : x = y).
      { assert (Ix : In x (y :: l2))
          by (eapply Permutation_in; [exact P | left; reflexivity]).
        assert (Iy : In y (x :: l1))
          by (eapply Permutation_in; [apply Permutation_sym; exact P | left; reflexivity]).
        destruct Ix as [-> | Ix]; [reflexivity|].
        destruct Iy as [-> | Iy]; [reflexivity|].
        rewrite Forall_forall in Hx, Hy.
        apply str_le_antisym; auto. }
      subst y. f_equal. apply IH; [assumption|].
      eapply Permutation_cons_inv; exact P.
Qed.

(** [sorted] gives one result for every order of iteration. *)
Lemma sorted_order_independent (l1 l2 : list str) :
  Permutation l1 l2 -> sorted l1 = sorted l2.
Proof.
  intros P. apply ordered_unique; try apply sorted_ordered.
  rewrite !sorted_perm. exact P.
Qed.

End SortFacts.

(** ** Facts about matching and scanning *)

Module ReFacts.
Import Py Re.

Local Open Scope list_scope.

(** What a successful [greedy] returns: a non-empty run of the class at the
    front of the text, and the continuation's match of what follows. *)
Lemma greedy_sound cls k s run gs n :
  greedy cls k s = Some (run, gs, n) ->
  run <> [] /\ Forall (fun c => cls c = true) run /\
  exists rest m, s = run ++ rest /\ k rest = Some (gs, m) /\ n = length run + m.
Proof.
  revert run gs n; induction s as [|x s IH]; intros run gs n; simpl;
    [discriminate|].
  destruct (cls x) eqn:Hx; [|discriminate].
  destruct (greedy cls k s) as [[[run' gs'] n']|] eqn:G.
  - intros [= <- <- <-].
    destruct (IH _ _ _ eq_refl) as (_ & Hall & rest & m & -> & Hk & ->).
    split; [discriminate|]. split; [constructor; assumption|].
    exists rest, m. auto.
  - destruct (k s) as [[gs' n']|] eqn:K; [|discriminate].
    intros [= <- <- <-].
    split; [discriminate|]. split; [repeat constructor; assumption|].
    exists s, n'. auto.
Qed.

(** A match never runs past the end of the text. *)
Lemma match_here_length r s gs n :
  match_here r s = Some (gs, n) -> n <= length s.
Proof.
  revert s gs n; induction r as [|[c | cap cls] r IH]; intros s gs n; simpl.
  - intros [= <- <-]. lia.
  - destruct s as [|x s]; [discriminate|].
    destruct (char_eqb x c); [|discriminate].
    destruct (match_here r s) as [[gs' n']|] eqn:M; [|discriminate].
    intros [= <- <-]. apply IH in M. simpl. lia.
  - destruct (greedy cls (match_here r) s) as [[[run gs'] n']|] eqn:G;
      [|discriminate].
    intros [= <- <-].
    apply greedy_sound in G.
    destruct G as (_ & _ & rest & m & -> & M & ->).
    apply IH in M. rewrite length_app. lia.
Qed.

(** Every match of a scan is a match of the pattern anchored where the
    match object says it starts. *)
Lemma scan_In r pos skip s m :
  In m (scan r pos skip s) ->
  exists k n, m_start m = pos + k /\ m_end m = m_start m + n /\
    skip <= k /\ k <= length s /\
    match_here r (skipn k s) = Some (m_groups m, n).
Proof.
  revert pos skip; induction s as [|x s IH]; intros pos skip.
  - destruct skip as [|j]; simpl; [|tauto].
    destruct (match_here r []) as [[gs n]|] eqn:M; simpl; [|tauto].
    intros [<- | []]. exists 0, n. simpl. rewrite M. repeat split; lia.
  - destruct skip as [|j]; cbn [scan].
    + destruct (match_here r (x :: s)) as [[gs n]|] eqn:M.
      * intros [<- | H].
        -- exists 0, n. simpl. rewrite M. repeat split; lia.
        -- destruct (IH _ _ H) as (k & n' & E1 & E2 & _ & L & Hm).
           exists (S k), n'. simpl. repeat split; try assumption; lia.
      * intros H. destruct (IH _ _ H) as (k & n' & E1 & E2 & _ & L & Hm).
        exists (S k), n'. simpl. repeat split; try assumption; lia.
    + intros H. destruct (IH _ _ H) as (k & n' & E1 & E2 & Lj & L & Hm).
      exists (S k), n'. simpl. repeat split; try assumption; lia.
Qed.

Lemma scan_lower r pos skip s :
  Forall (fun m => pos + skip <= m_start m) (scan r pos skip s).
Proof.
  rewrite Forall_forall. intros m H.
  destruct (scan_In _ _ _ _ _ H) as (k & n & -> & _ & L & _). lia.
Qed.

(** Matches come out left to right and do not overlap. *)
Lemma scan_ordered r pos skip s :
  StronglySorted before (scan r pos skip s).
Proof.
  revert pos skip; induction s as [|x s IH]; intros pos skip.
  - destruct skip; simpl; [|constructor].
    destruct (match_here r []) as [[gs n]|]; repeat constructor.
  - destruct skip as [|j]; cbn [scan]; [|apply IH].
    destruct (match_here r (x :: s)) as [[gs n]|]; [|apply IH].
    constructor; [apply IH|].
    eapply Forall_impl; [|apply scan_lower].
    intros m H. unfold before; simpl in *. lia.
Qed.

(** The groups found do not depend on where the count of positions starts. *)
Lemma scan_groups_pos r pos pos' skip s :
  map m_groups (scan r pos skip s) = map m_groups (scan r pos' skip s).
Proof.
  revert pos pos' skip; induction s as [|x s IH]; intros pos pos' skip.
  - destruct skip; simpl; [|reflexivity].
    destruct (match_here r []) as [[gs n]|]; reflexivity.
  - destruct skip as [|j]; cbn [scan]; [|apply IH].
    destruct (match_here r (x :: s)) as [[gs n]|]; [|apply IH].
    simpl. f_equal. apply IH.
Qed.

Lemma greedy_blocked cls k c s t :
  cls c = false ->
  (forall u, k (u ++ c :: t) = k u) ->
  greedy cls k (s ++ c :: t) = greedy cls k s.
Proof.
  intros Hc Hk. induction s as [|x s IH]; simpl.
  - rewrite Hc. reflexivity.
  - rewrite IH, Hk. reflexivity.
Qed.

(** Text behind such a character has no influence on a match before it. *)
Lemma match_here_blocked r c s t :
  Forall (blocks c) r ->
  match_here r (s ++ c :: t) = match_here r s.
Proof.
  intros H; revert s; induction H as [|[x | cap cls] r Hb Hr IH]; intros s;
    simpl in *.
  - reflexivity.
  - destruct s as [|y s]; simpl.
    + rewrite Hb. reflexivity.
    + rewrite IH. reflexivity.
  - rewrite greedy_blocked by assumption. reflexivity.
Qed.

(** So the scan of a text cut by such a character is the scan of the part
    before it followed by the scan of the rest. *)
Lemma scan_blocked r c s t pos skip :
  Forall (blocks c) r ->
  match_here r [] = None ->
  skip <= length s ->
  scan r pos skip (s ++ c :: t) =
  scan r pos skip s ++ scan r (pos + length s) 0 (c :: t).
Proof.
  intros Hb Hnil; revert pos skip; induction s as [|x s IH];
    intros pos skip Hskip.
  - simpl in Hskip. assert (skip = 0) as -> by lia.
    cbn [app length scan]. rewrite Hnil, Nat.add_0_r. reflexivity.
  - change ((x :: s) ++ c :: t) with (x :: (s ++ c :: t)).
    simpl in Hskip. destruct skip as [|j]; cbn [scan length].
    + change (x :: (s ++ c :: t)) with ((x :: s) ++ c :: t).
      rewrite match_here_blocked by assumption.
      destruct (match_here r (x :: s)) as [[gs n]|] eqn:M.
      * apply match_here_length in M. simpl in M.
        rewrite IH by lia. rewrite <- Nat.add_succ_comm. reflexivity.
      * rewrite IH by lia. rewrite <- Nat.add_succ_comm. reflexivity.
    + rewrite IH by lia. rewrite <- Nat.add_succ_comm. reflexivity.
Qed.

End ReFacts.

(** ** Facts about the script's two loops *)

Module KeymapFacts.
Import Py Re Eff Keymap PyFacts SortFacts ReFacts.

Local Open Scope string_scope.
Local Open Scope list_scope.

Section Loops.
Context {U : UnicodeData}.

Lemma append_matches (i : nat) (ms : list Match) (bindings : list binding) :
  fold_left (append_match i) ms bindings = bindings ++ map (binding_of i) ms.
Proof.
  revert bindings; induction ms as [|m ms IH]; intros bindings; simpl.
  - symmetry; apply app_nil_r.
  - rewrite IH. unfold append_match. rewrite <- app_assoc. reflexivity.
Qed.

Lemma extract_line_app (bindings : list binding) (il : nat * str) :
  extract_line bindings il = bindings ++ extract_line [] il.
Proof.
  destruct il as [i line]. unfold extract_line.
  destruct (is_comment line).
  - symmetry; apply app_nil_r.
  - rewrite !append_matches. reflexivity.
Qed.

(** What one line contributes. *)
Lemma extract_line_nil (i : nat) (line : str) :
  extract_line [] (i, line) =
  if is_comment line then [] else map (binding_of i) (finditer binding_re line).
Proof.
  unfold extract_line. destruct (is_comment line); [reflexivity|].
  apply append_matches.
Qed.

(** The bindings of a text are those of its lines, one line after another. *)
Lemma extract_bindings_lines (content : str) :
  extract_bindings content =
  flat_map (extract_line []) (enumerate 1 (split_nl content)).
Proof.
  unfold extract_bindings.
  rewrite (fold_left_appending extract_line _ _ extract_line_app). reflexivity.
Qed.

Lemma in_enumerate (A : Type) (start i : nat) (x : A) (l : list A) :
  In (i, x) (enumerate start l) <->
  start <= i /\ nth_error l (i - start) = Some x.
Proof.
  unfold enumerate. revert start; induction l as [|y l IH]; intros start; simpl.
  - split; [tauto|]. intros [_ H]. destruct (i - start); discriminate.
  - rewrite IH. split.
    + intros [[= <- <-] | [L H]].
      * rewrite Nat.sub_diag. split; [lia | reflexivity].
      * split; [lia|]. replace (i - start) with (S (i - S start)) by lia.
        exact H.
    + intros [L H]. destruct (i - start) as [|k] eqn:E.
      * left. injection H as ->. f_equal. lia.
      * right. split; [lia|]. replace (i - S start) with k by lia. exact H.
Qed.

(** Where a binding of the result comes from: a match of the pattern on the
    line its number names, and that line is not skipped. *)
Lemma extract_bindings_In (content : str) (b : binding) :
  In b (extract_bindings content) <->
  exists i line m,
    1 <= i /\ nth_error (split_nl content) (i - 1) = Some line /\
    is_comment line = false /\
    In m (finditer binding_re line) /\ b = binding_of i m.
Proof.
  rewrite extract_bindings_lines, in_flat_map. split.
  - intros ([i line] & Hin & Hb). apply in_enumerate in Hin.
    rewrite extract_line_nil in Hb.
    destruct (is_comment line) eqn:C; [destruct Hb|].
    apply in_map_iff in Hb. destruct Hb as (m & <- & Hm).
    exists i, line, m. tauto.
  - intros (i & line & m & L & Hn & C & Hm & ->).
    exists (i, line). split; [apply in_enumerate; tauto|].
    rewrite extract_line_nil, C. apply in_map. exact Hm.
Qed.

(** The shape of a match of the binding pattern: an ampersand, a word, white
    space and an argument of ASCII word characters, none of them empty. *)
Lemma binding_re_sound (s : str) (gs : list str) (n : nat) :
  match_here binding_re s = Some (gs, n) ->
  exists behavior ws arg rest,
    s = 38%N :: behavior ++ ws ++ arg ++ rest /\
    gs = [behavior; arg] /\
    n = 1 + length behavior + length ws + length arg /\
    behavior <> [] /\ Forall (fun c => is_word c = true) behavior /\
    ws <> [] /\ Forall (fun c => isspace c = true) ws /\
    arg <> [] /\ Forall (fun c => is_ascii_word c = true) arg.
Proof.
  unfold binding_re. cbn [match_here].
  destruct s as [|x s]; [discriminate|].
  destruct (char_eqb x 38%N) eqn:X; [|discriminate].
  apply N.eqb_eq in X. subst x.
  destruct (greedy is_word _ s) as [[[g1 gs1] n1]|] eqn:G1; [|discriminate].
  simpl. intros [= <- <-].
  apply greedy_sound in G1.
  destruct G1 as (N1 & A1 & rest1 & m1 & -> & K1 & ->).
  cbn [match_here] in K1.
  destruct (greedy isspace _ rest1) as [[[g2 gs2] n2]|] eqn:G2; [|discriminate].
  injection K1 as <- <-.
  apply greedy_sound in G2.
  destruct G2 as (N2 & A2 & rest2 & m2 & -> & K2 & ->).
  cbn [match_here] in K2.
  destruct (greedy is_ascii_word _ rest2) as [[[g3 gs3] n3]|] eqn:G3;
    [|discriminate].
  injection K2 as <- <-.
  apply greedy_sound in G3.
  destruct G3 as (N3 & A3 & rest3 & m3 & -> & K3 & ->).
  injection K3 as <- <-.
  exists g1, g2, g3, rest3. simpl. repeat split; try assumption.
  rewrite Nat.add_0_r, !Nat.add_assoc. reflexivity.
Qed.

(** Every match the scan of a line finds has that shape. *)
Lemma finditer_binding (line : str) (m : Match) :
  In m (finditer binding_re line) ->
  exists behavior arg,
    m_groups m = [behavior; arg] /\
    behavior <> [] /\ Forall (fun c => is_word c = true) behavior /\
    arg <> [] /\ Forall (fun c => is_ascii_word c = true) arg.
Proof.
  intros H. apply scan_In in H.
  destruct H as (k & n & _ & _ & _ & _ & M).
  apply binding_re_sound in M.
  destruct M as (behavior & ws & arg & rest & _ & E & _ & ? & ? & _ & _ & ? & ?).
  exists behavior, arg. tauto.
Qed.

End Loops.

Section Validation.
Context {U : UnicodeData}.
Variable w : World.

Lemma check_binding_app (errors : list str) (b : binding) :
  check_binding w errors b = errors ++ check_binding w [] b.
Proof.
  destruct b as [[line_num behavior] arg]. unfold check_binding.
  repeat match goal with
         | |- context [if ?c then _ else _] => destruct c
         end;
    cbn [app]; rewrite ?app_nil_r; reflexivity.
Qed.

(** The diagnostics of a text are those of its bindings, one binding after
    another. *)
Lemma validate_content_bindings (content : str) :
  validate_content w content =
  flat_map (check_binding w []) (extract_bindings content).
Proof.
  unfold validate_content.
  rewrite (fold_left_appending (check_binding w) _ _ check_binding_app).
  reflexivity.
Qed.

(** Sets that differ in iteration order only give the same sorted listing. *)
Lemma sorted_set_iter (w' : World) (s : list str) :
  sets_ok w -> sets_ok w' ->
  sorted (set_iter w s) = sorted (set_iter w' s).
Proof.
  intros H H'. apply sorted_order_independent.
  rewrite (H s), (H' s). reflexivity.
Qed.

(** The sorted listing of a set, computed from any listing of it. *)
Lemma sorted_set_iter_eq (s l : list str) :
  sets_ok w -> NoDup s -> sorted s = l -> sorted (set_iter w s) = l.
Proof.
  intros H N <-. apply sorted_order_independent.
  rewrite (H s), nodup_fixed_point by assumption. reflexivity.
Qed.

End Validation.

End KeymapFacts.

(** ** Properties of the validator *)

Module Properties.
Import Py Re Eff Keymap Vocabulary Terms PyFacts SortFacts ReFacts KeymapFacts.

Local Open Scope string_scope.
Local Open Scope list_scope.

Section Checks.
Context {U : UnicodeData}.
Variable w : World.

(** C1: a [kp] binding adds nothing when its argument is in the keycode set
    and exactly one diagnostic otherwise, "Line <n>: Unknown keycode '<arg>'"
    followed by a suffix: the suggestions C_MUTE (the argument contains
    VOL_MUTE) and C_VOL_DN (it contains VOL_DOWN), comma-joined in one
    parenthesis, or nothing when neither occurs.  On the line
    [&kp C_VOL_MUTE] the diagnostic is the one the specification gives. *)
Theorem kp_diagnostic (errors : list str) (line_num : nat) (arg : str) :
  (In arg VALID_KEYCODES ->
   check_binding w errors (line_num, lit "kp", arg) = errors) /\
  (~ In arg VALID_KEYCODES ->
   exists suffix,
     check_binding w errors (line_num, lit "kp", arg) =
     errors ++ [lit "Line " ++ str_of_nat line_num ++
                lit ": Unknown keycode '" ++ arg ++ lit "'" ++ suffix] /\
     (occurs "VOL_MUTE" arg -> occurs "VOL_DOWN" arg ->
      suffix = lit " (did you mean: C_MUTE, C_VOL_DN?)") /\
     (occurs "VOL_MUTE" arg -> ~ occurs "VOL_DOWN" arg ->
      suffix = lit " (did you mean: C_MUTE?)") /\
     (~ occurs "VOL_MUTE" arg -> occurs "VOL_DOWN" arg ->
      suffix = lit " (did you mean: C_VOL_DN?)") /\
     (~ occurs "VOL_MUTE" arg -> ~ occurs "VOL_DOWN" arg ->
      suffix = [])) /\
  validate_content w (lit "&kp C_VOL_MUTE") =
  [lit "Line 1: Unknown keycode 'C_VOL_MUTE' (did you mean: C_MUTE?)"].
Proof.
  split; [|split; [|vm_compute; reflexivity]].
  - intros H. apply mem_In in H.
    unfold check_binding. rewrite str_eqb_refl, H. reflexivity.
  - intros H. apply mem_not_In in H.
    unfold check_binding. rewrite str_eqb_refl, H. cbn [negb].
    assert (Yes : forall sub, contains arg (lit sub) = true -> occurs sub arg)
      by (intros sub E; apply contains_infix; exact E).
    assert (No : forall sub, contains arg (lit sub) = false -> ~ occurs sub arg)
      by (intros sub E O; apply contains_infix in O; congruence).
    destruct (contains arg (lit "VOL_MUTE")) eqn:M;
      [apply Yes in M | apply No in M];
      (destruct (contains arg (lit "VOL_DOWN")) eqn:D;
       [apply Yes in D | apply No in D]);
      cbn [app]; (eexists; split; [rewrite <- ?app_assoc; reflexivity|]);
      repeat split; intros; first [reflexivity | contradiction].
Qed.

Lemma NoDup_computed (l : list str) :
  nodup (list_eq_dec N.eq_dec) l = l -> NoDup l.
Proof. intros <-. apply NoDup_nodup. Qed.

(** C2: for [mkp], [msc] and [mmv] a binding adds nothing when its argument
    is in the behavior's fixed set and exactly one diagnostic otherwise, whose
    list of valid values is that set in sorted order, comma-joined.  Each row
    below gives the behavior, the wording of its diagnostic, the set as the
    script writes it and the sorted listing. *)
Theorem mouse_diagnostic (Hw : sets_ok w) (errors : list str) (line_num : nat)
  (arg : str) (behavior what : string) (valid : list str)
  (listing : list string) :
  In (behavior, what, valid, listing)
    [("mkp", "Invalid mouse button", valid_mkp,
      ["LCLK"; "MB1"; "MB2"; "MB3"; "MB4"; "MB5"; "MCLK"; "RCLK"]);
     ("msc", "Invalid scroll code", valid_msc,
      ["SCRL_DOWN"; "SCRL_LEFT"; "SCRL_RIGHT"; "SCRL_UP"]);
     ("mmv", "Invalid mouse move", valid_mmv,
      ["MOVE_DOWN"; "MOVE_LEFT"; "MOVE_RIGHT"; "MOVE_UP"])] ->
  Permutation (map lit listing) valid /\
  StronglySorted str_le (map lit listing) /\
  (In arg valid ->
   check_binding w errors (line_num, lit behavior, arg) = errors) /\
  (~ In arg valid ->
   check_binding w errors (line_num, lit behavior, arg) =
   errors ++ [lit "Line " ++ str_of_nat line_num ++ lit ": " ++ lit what ++
              lit " '" ++ arg ++ lit "' (valid: " ++
              join (lit ", ") (map lit listing) ++ lit ")"]).
Proof.
  intros Hrow.
  assert (Hsorted : sorted valid = map lit listing /\ NoDup valid).
  { simpl in Hrow.
    destruct Hrow as [[= <- <- <- <-] | [[= <- <- <- <-] | [[= <- <- <- <-] | []]]];
      (split; [vm_compute; reflexivity | apply NoDup_computed; vm_compute; reflexivity]). }
  destruct Hsorted as [Hsorted Hnodup].
  split; [rewrite <- Hsorted; apply sorted_perm|].
  split; [rewrite <- Hsorted; apply sorted_ordered|].
  assert (Hlist : sorted (set_iter w valid) = map lit listing)
    by (apply sorted_set_iter_eq; assumption).
  simpl in Hrow.
  destruct Hrow as [[= <- <- <- <-] | [[= <- <- <- <-] | [[= <- <- <- <-] | []]]];
    (split; intros H; [apply mem_In in H | apply mem_not_In in H]);
    unfold check_binding, invalid_msg;
    change (str_eqb (lit "mkp") (lit "kp")) with false;
    change (str_eqb (lit "msc") (lit "kp")) with false;
    change (str_eqb (lit "mmv") (lit "kp")) with false;
    change (str_eqb (lit "msc") (lit "mkp")) with false;
    change (str_eqb (lit "mmv") (lit "mkp")) with false;
    change (str_eqb (lit "mmv") (lit "msc")) with false;
    cbv iota; rewrite str_eqb_refl, H; cbn [negb]; rewrite ?Hlist; reflexivity.
Qed.

(** C6: a binding whose behavior is none of [kp], [mkp], [msc], [mmv] adds
    no diagnostic, whatever its argument; that covers the other names of
    [VALID_BEHAVIORS] and names the script has never heard of. *)
Theorem other_behavior_silent (errors : list str) (line_num : nat)
  (behavior arg : str) :
  ~ In behavior (map lit ["kp"; "mkp"; "msc"; "mmv"]) ->
  check_binding w errors (line_num, behavior, arg) = errors.
Proof.
  intros H.
  assert (Hne : forall name, In name ["kp"; "mkp"; "msc"; "mmv"] ->
                             str_eqb behavior (lit name) = false).
  { intros name Hname. apply str_eqb_neq. intros ->.
    apply H, in_map, Hname. }
  unfold check_binding.
  rewrite !Hne by (cbn [In]; tauto).
  reflexivity.
Qed.

(** C3: a line whose stripped text starts with [//] or [/*] leaves the list
    of bindings as it was, and no binding of the result carries that line's
    number, whatever the line contains. *)
Theorem comment_line_skipped (content : str) (k : nat) (line : str) :
  nth_error (split_nl content) k = Some line ->
  startswith (strip line) (lit "//") = true \/
  startswith (strip line) (lit "/*") = true ->
  (forall bindings, extract_line bindings (S k, line) = bindings) /\
  (forall behavior arg, ~ In (S k, behavior, arg) (extract_bindings content)).
Proof.
  intros Hline Hstart.
  assert (C : is_comment line = true).
  { unfold is_comment. apply orb_true_iff. exact Hstart. }
  split.
  - intros bindings. unfold extract_line. rewrite C. reflexivity.
  - intros behavior arg Hin. apply extract_bindings_In in Hin.
    destruct Hin as (i & line' & m & Hi & Hnth & C' & _ & E).
    unfold binding_of in E. injection E as <- _ _.
    cbn [Nat.sub] in Hnth. rewrite Nat.sub_0_r, Hline in Hnth.
    congruence.
Qed.

Lemma is_ascii_word_spec (c : char) :
  is_ascii_word c = true <-> ascii_word_char c.
Proof.
  unfold is_ascii_word, ascii_word_char, between, char_eqb.
  rewrite !orb_true_iff, !andb_true_iff, !N.leb_le, N.eqb_eq. tauto.
Qed.

(** C9: the argument of every extracted binding is a non-empty string of
    ASCII letters, digits and underscores, so it holds no space and is none
    of the five entries [BT_SEL 0] to [BT_SEL 4] of the keycode set. *)
Theorem argument_token_shape (content : str) (line_num : nat)
  (behavior arg : str) :
  In (line_num, behavior, arg) (extract_bindings content) ->
  arg <> [] /\
  Forall ascii_word_char arg /\
  ~ In 32%N arg /\
  incl (map lit ["BT_SEL 0"; "BT_SEL 1"; "BT_SEL 2"; "BT_SEL 3"; "BT_SEL 4"])
       VALID_KEYCODES /\
  ~ In arg (map lit ["BT_SEL 0"; "BT_SEL 1"; "BT_SEL 2"; "BT_SEL 3"; "BT_SEL 4"]).
Proof.
  intros Hin. apply extract_bindings_In in Hin.
  destruct Hin as (i & line & m & _ & _ & _ & Hm & E).
  apply finditer_binding in Hm.
  destruct Hm as (behavior' & arg' & G & _ & _ & Hne & Hall).
  unfold binding_of, group in E. rewrite G in E. simpl in E.
  injection E as -> -> ->.
  assert (Hword : Forall ascii_word_char arg').
  { eapply Forall_impl; [|exact Hall]. intros c. apply is_ascii_word_spec. }
  assert (Hspace : ~ In 32%N arg').
  { intros H. rewrite Forall_forall in Hword. apply Hword in H.
    unfold ascii_word_char in H. lia. }
  repeat split; try assumption.
  - intros key Hkey. apply mem_In.
    cbn [map In] in Hkey.
    destruct Hkey as [<- | [<- | [<- | [<- | [<- | []]]]]];
      vm_compute; reflexivity.
  - intros Hkey. apply Hspace.
    cbn [map In] in Hkey.
    destruct Hkey as [<- | [<- | [<- | [<- | [<- | []]]]]];
      vm_compute; tauto.
Qed.

Lemma binding_re_blocked_by_slash : Forall (blocks 47%N) binding_re.
Proof. repeat constructor. Qed.

Lemma map_binding_of_groups (i : nat) (ms ms' : list Match) :
  map m_groups ms = map m_groups ms' ->
  map (binding_of i) ms = map (binding_of i) ms'.
Proof.
  intros H.
  assert (E : forall l, map (binding_of i) l =
                        map (fun gs => (i, nth 0 gs [], nth 1 gs []))
                            (map m_groups l))
    by (intros l; rewrite map_map; reflexivity).
  rewrite !E, H. reflexivity.
Qed.

Lemma binding_re_needs_ampersand (x : char) (s : str) :
  char_eqb x 38%N = false -> match_here binding_re (x :: s) = None.
Proof. intros H. simpl. rewrite H. reflexivity. Qed.

Lemma scan_no_match (r : pattern) (pos : nat) (x : char) (s : str) :
  match_here r (x :: s) = None -> scan r pos 0 (x :: s) = scan r (S pos) 0 s.
Proof. intros H. cbn [scan]. rewrite H. reflexivity. Qed.

(** A comment marker inside a line stops nothing: the scan finds what is
    before it and what is after it. *)
Lemma finditer_across_marker (i : nat) (pre marker post : str) :
  marker = lit "//" \/ marker = lit "/*" ->
  map (binding_of i) (finditer binding_re (pre ++ marker ++ post)) =
  map (binding_of i) (finditer binding_re pre) ++
  map (binding_of i) (finditer binding_re post).
Proof.
  intros Hm. rewrite <- map_app. apply map_binding_of_groups.
  rewrite map_app. unfold finditer.
  assert (E : exists x, marker ++ post = 47%N :: x :: post /\
                        char_eqb x 38%N = false).
  { destruct Hm as [-> | ->]; eexists; split; reflexivity. }
  destruct E as (x & -> & Hx).
  rewrite scan_blocked;
    [| exact binding_re_blocked_by_slash | reflexivity | apply Nat.le_0_l].
  rewrite map_app. f_equal.
  rewrite !scan_no_match by (apply binding_re_needs_ampersand; assumption || reflexivity).
  apply scan_groups_pos.
Qed.

(** C10: on a line that is not skipped, a [//] or [/*] further along hides
    nothing: the line yields the bindings found before the marker followed by
    those found after it, and every binding found after the marker is among
    the extracted bindings, under the line's number, and its diagnostic, if
    it has one, is among the diagnostics.  The line [&kp A // &kp ZZZZ] is
    reported for its ZZZZ. *)
Theorem midline_marker_ignored (content : str) (k : nat)
  (pre marker post : str) :
  nth_error (split_nl content) k = Some (pre ++ marker ++ post) ->
  marker = lit "//" \/ marker = lit "/*" ->
  is_comment (pre ++ marker ++ post) = false ->
  extract_line [] (S k, pre ++ marker ++ post) =
  map (binding_of (S k)) (finditer binding_re pre) ++
  map (binding_of (S k)) (finditer binding_re post) /\
  (forall m,
     In m (finditer binding_re post) ->
     In (binding_of (S k) m) (extract_bindings content) /\
     incl (check_binding w [] (binding_of (S k) m))
          (validate_content w content)) /\
  validate_content w (lit "&kp A // &kp ZZZZ") =
  [lit "Line 1: Unknown keycode 'ZZZZ'"].
Proof.
  intros Hline Hm C.
  assert (E : extract_line [] (S k, pre ++ marker ++ post) =
              map (binding_of (S k)) (finditer binding_re pre) ++
              map (binding_of (S k)) (finditer binding_re post)).
  { rewrite extract_line_nil, C. apply finditer_across_marker. exact Hm. }
  split; [exact E|].
  split; [|vm_compute; reflexivity].
  intros m Hin.
  assert (Hb : In (binding_of (S k) m) (extract_bindings content)).
  { rewrite extract_bindings_lines. apply in_flat_map.
    exists (S k, pre ++ marker ++ post). split.
    - apply in_enumerate. split; [lia|].
      cbn [Nat.sub]. rewrite Nat.sub_0_r. exact Hline.
    - rewrite E. apply in_or_app. right. apply in_map. exact Hin. }
  split; [exact Hb|].
  intros d Hd. rewrite validate_content_bindings. apply in_flat_map.
  exists (binding_of (S k) m). split; assumption.
Qed.

Lemma split_nl_one_line (s : str) : ~ In 10%N s -> split_nl s = [s].
Proof.
  induction s as [|c s IH]; intros H; simpl; [reflexivity|].
  destruct (char_eqb c 10%N) eqn:E.
  - apply N.eqb_eq in E. exfalso. apply H. left. rewrite E. reflexivity.
  - rewrite IH; [reflexivity|]. intros Hin. apply H. right. exact Hin.
Qed.

Lemma lstrip_keeps_last (x : char) (l : str) :
  isspace x = false -> exists t, lstrip (l ++ [x]) = t ++ [x].
Proof.
  intros Hx. induction l as [|y l IH]; simpl.
  - rewrite Hx. exists []. reflexivity.
  - destruct (isspace y); [exact IH|]. exists (y :: l). reflexivity.
Qed.

(** Stripping keeps a first character that is not white space. *)
Lemma strip_keeps_first (x : char) (s : str) :
  isspace x = false -> exists t, strip (x :: s) = x :: t.
Proof.
  intros Hx. unfold strip, rstrip. cbn [lstrip]. rewrite Hx. cbn [rev].
  destruct (@lstrip_keeps_last x (rev s) Hx) as (t & ->).
  exists (rev t). rewrite rev_app_distr. reflexivity.
Qed.

(** A line whose first character is neither white space nor a slash is not
    skipped. *)
Lemma not_comment_by_first (x : char) (s : str) :
  isspace x = false -> char_eqb x 47%N = false -> is_comment (x :: s) = false.
Proof.
  intros Hx Hs. unfold is_comment.
  destruct (@strip_keeps_first x s Hx) as (t & ->).
  simpl. rewrite Hs. reflexivity.
Qed.

Lemma scan_repeated_binding (pos : nat) (s : str) :
  map m_groups (scan binding_re pos 0 (lit "&kp ZZZZ " ++ s)) =
  [lit "kp"; lit "ZZZZ"] :: map m_groups (scan binding_re 0 0 s).
Proof.
  simpl. f_equal. apply scan_groups_pos.
Qed.

Lemma extract_repeated_binding (n : nat) :
  extract_bindings (repeated_binding n) =
  repeat (1, lit "kp", lit "ZZZZ") n.
Proof.
  rewrite extract_bindings_lines.
  assert (Hnl : ~ In 10%N (repeated_binding n)).
  { unfold repeated_binding. induction n as [|n IH]; simpl; [tauto|].
    intros H. repeat (destruct H as [H | H]; [discriminate|]). tauto. }
  rewrite (split_nl_one_line _ Hnl). cbn [enumerate length seq combine flat_map].
  rewrite app_nil_r, extract_line_nil.
  assert (C : is_comment (repeated_binding n) = false).
  { destruct n as [|n]; [reflexivity|].
    exact (@not_comment_by_first 38%N _ eq_refl eq_refl). }
  rewrite C. clear C Hnl.
  assert (E : forall l, map (binding_of 1) l =
                        map (fun gs => (1, nth 0 gs [], nth 1 gs []))
                            (map m_groups l))
    by (intros l; rewrite map_map; reflexivity).
  rewrite E. unfold finditer, repeated_binding. clear E.
  induction n as [|n IH]; [reflexivity|].
  cbn [repeat concat]. rewrite scan_repeated_binding.
  cbn [map]. rewrite IH. reflexivity.
Qed.

(** C5: diagnostics come in the order of the scan and are never merged.  The
    bindings are those of the lines from the first to the last, each line's
    in the order of its matches, which start one after the other without
    overlap; the diagnostics are those of the bindings in that order; a
    binding that occurs [n] times is checked [n] times, so [n] copies of
    [&kp ZZZZ] on one line give the same diagnostic [n] times. *)
Theorem diagnostics_in_scan_order (content : str) :
  extract_bindings content =
  flat_map (fun il : nat * str =>
              if is_comment (snd il) then []
              else map (binding_of (fst il)) (finditer binding_re (snd il)))
           (combine (seq 1 (length (split_nl content))) (split_nl content)) /\
  (forall line, StronglySorted before (finditer binding_re line)) /\
  validate_content w content =
  flat_map (check_binding w []) (extract_bindings content) /\
  (forall b n,
     fold_left (check_binding w) (repeat b n) [] =
     concat (repeat (check_binding w [] b) n)) /\
  (forall n,
     validate_content w (repeated_binding n) =
     repeat (lit "Line 1: Unknown keycode 'ZZZZ'") n).
Proof.
  split; [|split; [|split; [|split]]].
  - rewrite extract_bindings_lines. unfold enumerate.
    apply flat_map_ext. intros [i line]. apply extract_line_nil.
  - intros line. apply scan_ordered.
  - apply validate_content_bindings.
  - intros b n.
    rewrite (fold_left_appending (check_binding w) _ _ (check_binding_app w)).
    cbn [app]. induction n as [|n IH]; simpl; [reflexivity|].
    rewrite IH. reflexivity.
  - intros n. rewrite validate_content_bindings, extract_repeated_binding.
    induction n as [|n IH]; [reflexivity|].
    cbn [repeat flat_map]. rewrite IH. reflexivity.
Qed.

Lemma check_binding_any_order (w' : World) (errors : list str) (b : binding) :
  sets_ok w -> sets_ok w' -> check_binding w errors b = check_binding w' errors b.
Proof.
  intros H H'. destruct b as [[line_num behavior] arg].
  unfold check_binding, invalid_msg.
  rewrite !(@sorted_set_iter w w' _ H H'). reflexivity.
Qed.

Lemma validate_content_any_order (w' : World) (content : str) :
  sets_ok w -> sets_ok w' -> validate_content w content = validate_content w' content.
Proof.
  intros H H'. unfold validate_content.
  generalize (@nil str) as errors.
  induction (extract_bindings content) as [|b bs IH]; intros errors; simpl.
  - reflexivity.
  - rewrite (@check_binding_any_order w' errors b H H'). apply IH.
Qed.

(** C8: two runs over the same file content return the same diagnostics in
    the same order, also when the two interpreters iterate their sets in
    different orders and find the content under different paths. *)
Theorem validation_deterministic (w' : World) (path path' content : str) :
  sets_ok w -> sets_ok w' ->
  read_text w path = Some content ->
  read_text w' path' = Some content ->
  outcome (validate_keymap w path) = outcome (validate_keymap w' path') /\
  outcome (validate_keymap w path) = Ret (validate_content w content).
Proof.
  intros H H' R R'.
  unfold validate_keymap, path_read_text, outcome.
  rewrite R, R'. cbn.
  rewrite (@validate_content_any_order w' content H H'). split; reflexivity.
Qed.

Lemma printed_app (t1 t2 : list event) :
  printed (t1 ++ t2) = printed t1 ++ printed t2.
Proof. apply flat_map_app. Qed.

Lemma for_each_map (A B : Type) (f : A -> B) (body : B -> IO unit)
  (l : list A) (t : list event) :
  for_each l (fun x => body (f x)) t = for_each (map f l) body t.
Proof.
  revert t; induction l as [|x l IH]; intros t; [reflexivity|].
  cbn [for_each map]. unfold bind.
  destruct (body (f x) t) as [t' [[]| |]]; [apply IH | reflexivity..].
Qed.

Lemma accepted_all (before lines : list str) :
  takes_all w before lines = true -> accepted w before lines = lines.
Proof.
  revert before; induction lines as [|l ls IH]; intros before;
    cbn [takes_all accepted]; [reflexivity|].
  intros H. apply andb_true_iff in H. destruct H as [H1 H2].
  rewrite H1, (IH _ H2). reflexivity.
Qed.

(** Printing lines one after the other: they go out up to the first that
    standard output refuses. *)
Lemma print_lines (lines : list str) (t : list event) :
  for_each lines (print w) t =
  (t ++ map Print (accepted w (printed t) lines),
   if takes_all w (printed t) lines then Ret tt else Raise).
Proof.
  revert t; induction lines as [|l ls IH]; intros t.
  - cbn. rewrite app_nil_r. reflexivity.
  - cbn [for_each accepted takes_all]. unfold bind, print at 1.
    destruct (stdout_write w (printed t) l).
    + rewrite IH, printed_app. cbn [printed flat_map app map andb].
      rewrite <- app_assoc. reflexivity.
    + cbn. rewrite app_nil_r. reflexivity.
Qed.

(** The run of [main], case by case. *)
Lemma main_run (argv : list str) :
  run (main w argv) =
  match argv with
  | _ :: path :: _ =>
      match path_exists w path with
      | None => ([Exists path], Raise)
      | Some false =>
          reporting w [Exists path]
            [lit "Error: File not found: " ++ path_str w path] 1%Z
      | Some true =>
          match read_text w path with
          | None => ([Exists path; ReadText path], Raise)
          | Some content =>
              reporting w [Exists path; ReadText path]
                (report_lines (validate_content w content))
                (report_code (validate_content w content))
          end
      end
  | _ => reporting w [] [usage_msg] 1%Z
  end.
Proof.
  assert (Short : length argv < 2 ->
                  run (main w argv) = reporting w [] [usage_msg] 1%Z).
  { intros H. apply Nat.ltb_lt in H. unfold run, main. rewrite H.
    cbv [bind print sys_exit reporting printed flat_map accepted takes_all
         map app andb].
    destruct (stdout_write w [] usage_msg); reflexivity. }
  destruct argv as [|prog [|path rest]];
    [apply Short; simpl; lia | apply Short; simpl; lia|].
  unfold run, main, validate_keymap, path_read_text, path_exists_.
  cbn [length Nat.ltb Nat.leb nth].
  destruct (path_exists w path) as [[|]|].
  - destruct (read_text w path) as [content|]; [|reflexivity].
    cbv [bind ret emit negb app].
    destruct (validate_content w content) as [|e errors].
    + cbn [report_lines report_code].
      unfold reporting, print. cbn [printed flat_map app accepted takes_all map].
      destruct (stdout_write w [] valid_msg); reflexivity.
    + cbn [report_lines report_code].
      generalize (e :: errors). intros errs.
      unfold reporting, print at 1.
      cbn [printed flat_map app accepted takes_all].
      destruct (stdout_write w [] failed_msg); [|reflexivity].
      rewrite for_each_map, print_lines.
      cbn [printed flat_map app andb map].
      destruct (takes_all w [failed_msg] _); reflexivity.
  - cbv [bind ret emit negb app]. unfold reporting, print.
    cbn [printed flat_map app accepted takes_all map].
    destruct (stdout_write w [] _); reflexivity.
  - reflexivity.
Qed.


(** C4 (amended): once the file is found and read, and provided standard
    output takes the lines, the run prints the failure header and one line
    per diagnostic, indented by two spaces, and leaves with [sys.exit(1)]
    when there is a diagnostic; it prints the one confirmation line and
    leaves with [sys.exit(0)] when there is none.  Whatever standard output
    does, the run prints these lines up to the first that is refused and
    then ends with the exception of that print. *)
Theorem report_after_read (prog path content : str) (rest : list str) :
  path_exists w path = Some true ->
  read_text w path = Some content ->
  (validate_content w content <> [] ->
   takes_all w []
     (failed_msg ::
      map (fun error => lit "  " ++ error) (validate_content w content)) =
   true ->
   run (main w (prog :: path :: rest)) =
   ([Exists path; ReadText path; Print failed_msg] ++
    map (fun error => Print (lit "  " ++ error)) (validate_content w content),
    Exit 1%Z)) /\
  (validate_content w content = [] ->
   stdout_write w [] valid_msg = true ->
   run (main w (prog :: path :: rest)) =
   ([Exists path; ReadText path; Print valid_msg], Exit 0%Z)) /\
  run (main w (prog :: path :: rest)) =
  reporting w [Exists path; ReadText path]
    (report_lines (validate_content w content))
    (report_code (validate_content w content)).
Proof.
  intros He Hr. rewrite main_run, He, Hr.
  split; [|split; [|reflexivity]].
  - intros Hne Hall.
    destruct (validate_content w content) as [|e errors]; [congruence|].
    unfold reporting. cbn [report_lines report_code].
    rewrite Hall, (accepted_all _ _ Hall).
    cbn [map app]. rewrite map_map. reflexivity.
  - intros -> Hok. unfold reporting.
    cbn [report_lines report_code accepted takes_all].
    rewrite Hok. reflexivity.
Qed.


End Checks.

End Properties.

(** ** The properties at work on concrete keymaps *)

Module Runs.
Import Py Re Eff Keymap Vocabulary Terms PyFacts KeymapFacts Properties Sample.

Local Open Scope string_scope.
Local Open Scope list_scope.

#[local] Existing Instance latin1.

Lemma world_sets_ok (name content : str) : sets_ok (world name content).
Proof. intros l. apply Permutation_refl. Qed.

Lemma rev_world_sets_ok (name content : str) : sets_ok (rev_world name content).
Proof. intros l. apply Permutation_sym, Permutation_rev. Qed.

(** [&mkp MB9] is reported with the sorted list of buttons. *)
Lemma mouse_diagnostic_run :
  check_binding (world (lit "corne.keymap") (lit "&mkp MB9")) []
    (1, lit "mkp", lit "MB9") =
  [lit "Line 1: Invalid mouse button 'MB9' (valid: LCLK, MB1, MB2, MB3, MB4, MB5, MCLK, RCLK)"].
Proof.
  refine (proj2 (proj2 (proj2
    (@mouse_diagnostic (world (lit "corne.keymap") (lit "&mkp MB9"))
       (world_sets_ok _ _) [] 1 (lit "MB9") "mkp" "Invalid mouse button"
       valid_mkp
       ["LCLK"; "MB1"; "MB2"; "MB3"; "MB4"; "MB5"; "MCLK"; "RCLK"] _))) _).
  - left. reflexivity.
  - apply mem_not_In. vm_compute. reflexivity.
Defined.

(** The second line of this keymap is a comment and yields nothing. *)
Lemma comment_line_skipped_run :
  extract_line [(1, lit "kp", lit "A")] (2, lit "  // &kp ZZZZ") =
  [(1, lit "kp", lit "A")] /\
  ~ In (2, lit "kp", lit "ZZZZ")
       (extract_bindings (lit "&kp A" ++ 10%N :: lit "  // &kp ZZZZ")).
Proof.
  assert (Hline : nth_error
                    (split_nl (lit "&kp A" ++ 10%N :: lit "  // &kp ZZZZ")) 1 =
                  Some (lit "  // &kp ZZZZ"))
    by (vm_compute; reflexivity).
  assert (Hstart : startswith (strip (lit "  // &kp ZZZZ")) (lit "//") = true \/
                   startswith (strip (lit "  // &kp ZZZZ")) (lit "/*") = true)
    by (left; vm_compute; reflexivity).
  split.
  - exact (proj1 (@comment_line_skipped latin1 _ 1 _ Hline Hstart)
                 [(1, lit "kp", lit "A")]).
  - exact (proj2 (@comment_line_skipped latin1 _ 1 _ Hline Hstart)
                 (lit "kp") (lit "ZZZZ")).
Defined.

(** [&mo ZZZZ] is not checked. *)
Lemma other_behavior_silent_run :
  check_binding (world (lit "corne.keymap") []) [] (3, lit "mo", lit "ZZZZ") = [].
Proof.
  apply (@other_behavior_silent (world (lit "corne.keymap") []) [] 3
           (lit "mo") (lit "ZZZZ")).
  apply mem_not_In. vm_compute. reflexivity.
Defined.

(** Two machines whose sets iterate in opposite orders agree on [&mkp MB9]. *)
Lemma validation_deterministic_run :
  outcome (validate_keymap (world (lit "a.keymap") (lit "&mkp MB9")) (lit "a.keymap")) =
  outcome (validate_keymap (rev_world (lit "b.keymap") (lit "&mkp MB9")) (lit "b.keymap")).
Proof.
  refine (proj1 (@validation_deterministic latin1
                   (world (lit "a.keymap") (lit "&mkp MB9"))
                   (rev_world (lit "b.keymap") (lit "&mkp MB9"))
                   (lit "a.keymap") (lit "b.keymap") (lit "&mkp MB9")
                   (world_sets_ok _ _) (rev_world_sets_ok _ _) _ _)).
  - vm_compute. reflexivity.
  - vm_compute. reflexivity.
Defined.

(** [&kp BT_SEL 0] is read as the argument [BT_SEL]. *)
Lemma argument_token_shape_run :
  In (1, lit "kp", lit "BT_SEL") (extract_bindings (lit "&kp BT_SEL 0")) /\
  ~ In (lit "BT_SEL")
       (map lit ["BT_SEL 0"; "BT_SEL 1"; "BT_SEL 2"; "BT_SEL 3"; "BT_SEL 4"]).
Proof.
  assert (H : In (1, lit "kp", lit "BT_SEL") (extract_bindings (lit "&kp BT_SEL 0")))
    by (vm_compute; left; reflexivity).
  split; [exact H|].
  exact (proj2 (proj2 (proj2 (proj2
    (@argument_token_shape latin1 (lit "&kp BT_SEL 0") 1 (lit "kp")
       (lit "BT_SEL") H))))).
Defined.

(** The bindings of [&kp A // &kp ZZZZ] are those of both halves. *)
Lemma midline_marker_ignored_run :
  extract_line [] (1, lit "&kp A " ++ lit "//" ++ lit " &kp ZZZZ") =
  map (binding_of 1) (finditer binding_re (lit "&kp A ")) ++
  map (binding_of 1) (finditer binding_re (lit " &kp ZZZZ")).
Proof.
  refine (proj1
    (@midline_marker_ignored latin1 (world (lit "corne.keymap") [])
       (lit "&kp A // &kp ZZZZ") 0
       (lit "&kp A ") (lit "//") (lit " &kp ZZZZ") _ _ _)).
  - vm_compute. reflexivity.
  - left. reflexivity.
  - vm_compute. reflexivity.
Defined.

(** A valid keymap on a standard output that takes every line: one
    confirmation line, then [sys.exit(0)]. *)
Lemma report_after_read_run :
  run (main (world (lit "corne.keymap") (lit "&kp A"))
            [lit "validate_keymap.py"; lit "corne.keymap"]) =
  ([Exists (lit "corne.keymap"); ReadText (lit "corne.keymap");
    Print valid_msg], Exit 0%Z).
Proof.
  refine (proj1 (proj2
    (@report_after_read latin1 (world (lit "corne.keymap") (lit "&kp A"))
       (lit "validate_keymap.py") (lit "corne.keymap") (lit "&kp A") [] _ _))
    _ _).
  - vm_compute. reflexivity.
  - vm_compute. reflexivity.
  - vm_compute. reflexivity.
  - reflexivity.
Defined.

(** The same keymap on a standard output that encodes ASCII only: the file
    is read, it has no diagnostic, and the run ends with the exception of
    the print of the check mark; no confirmation line, no [sys.exit(0)]. *)
Lemma confirmation_needs_stdout :
  path_exists (ascii_stdout (lit "corne.keymap") (lit "&kp A"))
              (lit "corne.keymap") = Some true /\
  read_text (ascii_stdout (lit "corne.keymap") (lit "&kp A"))
            (lit "corne.keymap") = Some (lit "&kp A") /\
  validate_content (ascii_stdout (lit "corne.keymap") (lit "&kp A"))
                   (lit "&kp A") = [] /\
  run (main (ascii_stdout (lit "corne.keymap") (lit "&kp A"))
            [lit "validate_keymap.py"; lit "corne.keymap"]) =
  ([Exists (lit "corne.keymap"); ReadText (lit "corne.keymap")], Raise).
Proof. repeat split; vm_compute; reflexivity. Qed.


End Runs.

(** ** Further properties: what the scan is sure to find *)

Module Further.
Import Py Re Eff Keymap Vocabulary Terms.
Import PyFacts SortFacts ReFacts KeymapFacts Properties.

Local Open Scope string_scope.
Local Open Scope list_scope.

Lemma greedy_stopped cls k s : stops cls s -> greedy cls k s = None.
Proof.
  destruct s as [|c s]; simpl; [reflexivity|]. intros ->. reflexivity.
Qed.

(** A repetition whose continuation always succeeds fails only where the
    class stops. *)
Lemma greedy_none_stops cls k s :
  (forall u, k u <> None) -> greedy cls k s = None -> stops cls s.
Proof.
  intros Hk. destruct s as [|x s]; simpl; [tauto|].
  destruct (cls x); [|reflexivity].
  destruct (greedy cls k s) as [[[run gs] n]|]; [discriminate|].
  destruct (k s) as [[gs n]|] eqn:K; [discriminate|].
  destruct (Hk s K).
Qed.

(** With such a continuation the repetition takes the whole run. *)
Lemma greedy_sound_maximal cls k s run gs n :
  (forall u, k u <> None) ->
  greedy cls k s = Some (run, gs, n) ->
  exists rest, s = run ++ rest /\ stops cls rest.
Proof.
  intros Hk. revert run gs n; induction s as [|x s IH]; intros run gs n;
    simpl; [discriminate|].
  destruct (cls x); [|discriminate].
  destruct (greedy cls k s) as [[[run' gs'] n']|] eqn:G.
  - intros [= <- <- <-]. destruct (IH _ _ _ eq_refl) as (rest & -> & Hs).
    exists rest. auto.
  - destruct (k s) as [[gs' n']|]; [|discriminate].
    intros [= <- <- <-]. exists s. split; [reflexivity|].
    eapply greedy_none_stops; eassumption.
Qed.

(** A run of the class that cannot go on hands over to the continuation. *)
Lemma greedy_complete cls k run rest gs m :
  run <> [] ->
  Forall (fun c => cls c = true) run ->
  greedy cls k rest = None ->
  k rest = Some (gs, m) ->
  greedy cls k (run ++ rest) = Some (run, gs, length run + m).
Proof.
  intros Hne Hall Hstop Hk. induction Hall as [|x run Hx Hall IH];
    [congruence|].
  cbn [app greedy length]. rewrite Hx.
  destruct run as [|y run].
  - cbn [app]. rewrite Hstop, Hk. reflexivity.
  - rewrite IH by discriminate. reflexivity.
Qed.

Lemma match_here_plus cap cls r s :
  match_here (Plus cap cls :: r) s =
  match greedy cls (match_here r) s with
  | Some (run, gs, n) => Some ((if cap then [run] else []) ++ gs, n)
  | None => None
  end.
Proof. reflexivity. Qed.

Lemma match_here_lit c r s :
  match_here (Lit c :: r) (c :: s) = advance 1 (match_here r s).
Proof. simpl. unfold char_eqb. rewrite N.eqb_refl. reflexivity. Qed.

Lemma scan_skip r pos t rest :
  scan r pos (length t) (t ++ rest) = scan r (pos + length t) 0 rest.
Proof.
  revert pos; induction t as [|x t IH]; intros pos; cbn [length app].
  - rewrite Nat.add_0_r. reflexivity.
  - cbn [scan]. rewrite IH, <- Nat.add_succ_comm. reflexivity.
Qed.

Section Scanning.
Context {U : UnicodeData}.

Lemma is_ascii_word_range (c : char) :
  is_ascii_word c = true ->
  (65 <= c <= 90 \/ 97 <= c <= 122 \/ 48 <= c <= 57 \/ c = 95)%N.
Proof.
  unfold is_ascii_word, between, char_eqb. intros H.
  rewrite !orb_true_iff, !andb_true_iff, !N.leb_le, N.eqb_eq in H. tauto.
Qed.

Lemma ascii_word_not_space (c : char) :
  is_ascii_word c = true -> isspace c = false.
Proof.
  intros H. apply is_ascii_word_range in H.
  unfold isspace, between.
  assert (L : (c <? 128)%N = true) by (apply N.ltb_lt; lia).
  rewrite L. apply orb_false_iff.
  split; apply andb_false_iff; rewrite !N.leb_gt; lia.
Qed.

Lemma word_not_newline (c : char) : is_word c = true -> c <> 10%N.
Proof. intros H ->. discriminate H. Qed.

Lemma ascii_word_is_word (c : char) : is_ascii_word c = true -> is_word c = true.
Proof.
  intros H. apply is_ascii_word_range in H.
  unfold is_word, isalnum, between, char_eqb.
  assert (L : (c <? 128)%N = true) by (apply N.ltb_lt; lia).
  rewrite L.
  rewrite !orb_true_iff, !andb_true_iff, !N.leb_le, N.eqb_eq. lia.
Qed.

Lemma stops_head (cls : char -> bool) (a b : str) :
  a <> [] -> Forall (fun c => cls c = false) a -> stops cls (a ++ b).
Proof.
  intros Hne Hall. destruct Hall as [|x a Hx _]; [congruence|]. exact Hx.
Qed.

(** The pattern matches a well-formed binding in full, whatever follows the
    argument, as long as the argument cannot go on. *)
Lemma binding_re_complete (behavior ws arg rest : str) :
  behavior <> [] -> Forall (fun c => is_word c = true) behavior ->
  ws <> [] -> Forall (fun c => isspace c = true) ws ->
  Forall (fun c => is_word c = false) ws ->
  arg <> [] -> Forall (fun c => is_ascii_word c = true) arg ->
  stops is_ascii_word rest ->
  match_here binding_re (38%N :: behavior ++ ws ++ arg ++ rest) =
  Some ([behavior; arg], S (length (behavior ++ ws ++ arg))).
Proof.
  intros Nb Ab Nw Aw Ww Na Aa Hrest.
  assert (Harg : match_here [Plus true is_ascii_word] (arg ++ rest) =
                 Some ([arg], length arg)).
  { rewrite match_here_plus.
    rewrite (@greedy_complete is_ascii_word (match_here []) arg rest [] 0 Na Aa
               (greedy_stopped _ _ _ Hrest) eq_refl).
    rewrite Nat.add_0_r. reflexivity. }
  assert (Hws : match_here [Plus false isspace; Plus true is_ascii_word]
                  (ws ++ arg ++ rest) = Some ([arg], length ws + length arg)).
  { rewrite match_here_plus.
    rewrite (@greedy_complete isspace _ ws (arg ++ rest) [arg] (length arg)
               Nw Aw); [reflexivity | | exact Harg].
    apply greedy_stopped, stops_head; [exact Na|].
    eapply Forall_impl; [|exact Aa]. apply ascii_word_not_space. }
  unfold binding_re. rewrite match_here_lit, match_here_plus.
  rewrite (@greedy_complete is_word _ behavior (ws ++ arg ++ rest) [arg]
             (length ws + length arg) Nb Ab); [| |exact Hws].
  - cbn [advance app]. rewrite !length_app, !Nat.add_assoc. reflexivity.
  - apply greedy_stopped, stops_head; assumption.
Qed.

Lemma scan_no_ampersand (pos : nat) (pre s : str) :
  ~ In 38%N pre ->
  scan binding_re pos 0 (pre ++ s) = scan binding_re (pos + length pre) 0 s.
Proof.
  revert pos; induction pre as [|x pre IH]; intros pos H; cbn [app length].
  - rewrite Nat.add_0_r. reflexivity.
  - assert (Hx : char_eqb x 38%N = false).
    { apply N.eqb_neq. intros ->. apply H. left. reflexivity. }
    cbn [scan]. cbn [binding_re match_here]. rewrite Hx.
    rewrite IH, <- Nat.add_succ_comm; [reflexivity|].
    intros Hin. apply H. right. exact Hin.
Qed.

Lemma scan_match (r : pattern) (pos n : nat) (x : char) (s : str)
  (gs : list str) :
  match_here r (x :: s) = Some (gs, n) ->
  scan r pos 0 (x :: s) =
  {| m_start := pos; m_end := pos + n; m_groups := gs |} ::
  scan r (S pos) (pred n) s.
Proof. intros H. cbn [scan]. rewrite H. reflexivity. Qed.

(** The scan of a line up to and including its first binding. *)
Lemma finditer_first (pre behavior ws arg rest : str) :
  ~ In 38%N pre ->
  behavior <> [] -> Forall (fun c => is_word c = true) behavior ->
  ws <> [] -> Forall (fun c => isspace c = true) ws ->
  Forall (fun c => is_word c = false) ws ->
  arg <> [] -> Forall (fun c => is_ascii_word c = true) arg ->
  stops is_ascii_word rest ->
  finditer binding_re (pre ++ 38%N :: behavior ++ ws ++ arg ++ rest) =
  {| m_start := length pre;
     m_end := length pre + S (length (behavior ++ ws ++ arg));
     m_groups := [behavior; arg] |} ::
  scan binding_re (length pre + S (length (behavior ++ ws ++ arg))) 0 rest.
Proof.
  intros Hpre Nb Ab Nw Aw Ww Na Aa Hrest. unfold finditer.
  rewrite scan_no_ampersand by exact Hpre. cbn [Nat.add].
  pose proof (binding_re_complete rest Nb Ab Nw Aw Ww Na Aa Hrest) as M.
  erewrite (@scan_match binding_re _ _ _ _ _ M).
  cbn [pred]. f_equal.
  replace (behavior ++ ws ++ arg ++ rest) with ((behavior ++ ws ++ arg) ++ rest)
    by (rewrite <- !app_assoc; reflexivity).
  rewrite scan_skip. f_equal. lia.
Qed.

(** X1: the first well-formed binding of a line is found.  When no
    ampersand comes before it, it is the first match, it spans from its
    ampersand to the end of its argument, and the scan goes on right behind
    it: the line's bindings are this one followed by those of the rest. *)
Theorem first_binding_found (i : nat) (pre behavior ws arg rest : str) :
  ~ In 38%N pre ->
  behavior <> [] -> Forall (fun c => is_word c = true) behavior ->
  ws <> [] -> Forall (fun c => isspace c = true) ws ->
  Forall (fun c => is_word c = false) ws ->
  arg <> [] -> Forall (fun c => is_ascii_word c = true) arg ->
  stops is_ascii_word rest ->
  hd_error (finditer binding_re (pre ++ 38%N :: behavior ++ ws ++ arg ++ rest)) =
  Some {| m_start := length pre;
          m_end := length pre + S (length (behavior ++ ws ++ arg));
          m_groups := [behavior; arg] |} /\
  map (binding_of i)
      (finditer binding_re (pre ++ 38%N :: behavior ++ ws ++ arg ++ rest)) =
  (i, behavior, arg) :: map (binding_of i) (finditer binding_re rest).
Proof.
  intros Hpre Nb Ab Nw Aw Ww Na Aa Hrest.
  rewrite (@finditer_first pre behavior ws arg rest
             Hpre Nb Ab Nw Aw Ww Na Aa Hrest).
  split; [reflexivity|].
  cbn [map]. f_equal. apply map_binding_of_groups, scan_groups_pos.
Qed.

Lemma scan_without_ampersand (pos : nat) (s : str) :
  ~ In 38%N s -> scan binding_re pos 0 s = [].
Proof.
  intros H. rewrite <- (app_nil_r s).
  rewrite (@scan_no_ampersand pos s [] H). reflexivity.
Qed.

Lemma no_newline_in_binding (behavior arg rest : str) :
  Forall (fun c => is_word c = true) behavior ->
  Forall (fun c => is_ascii_word c = true) arg ->
  ~ In 10%N rest ->
  ~ In 10%N (38%N :: behavior ++ 32%N :: arg ++ rest).
Proof.
  intros Ab Aa Hr [H | H]; [discriminate|].
  apply in_app_or in H. destruct H as [H | [H | H]]; [ | discriminate | ].
  - rewrite Forall_forall in Ab. apply Ab in H. discriminate.
  - apply in_app_or in H. destruct H as [H | H]; [|exact (Hr H)].
    rewrite Forall_forall in Aa. apply Aa in H. discriminate.
Qed.

(** What the extractor reads from a one-line text that starts with
    [&behavior arg] and has no further ampersand. *)
Lemma extract_formatted (behavior arg rest : str) :
  behavior <> [] -> Forall (fun c => is_word c = true) behavior ->
  arg <> [] -> Forall (fun c => is_ascii_word c = true) arg ->
  stops is_ascii_word rest -> ~ In 38%N rest -> ~ In 10%N rest ->
  extract_bindings (38%N :: behavior ++ 32%N :: arg ++ rest) =
  [(1, behavior, arg)].
Proof.
  intros Nb Ab Na Aa Hstop Hamp Hnl.
  rewrite extract_bindings_lines.
  rewrite (@split_nl_one_line _
             (@no_newline_in_binding behavior arg rest Ab Aa Hnl)).
  cbn [enumerate length seq combine flat_map]. rewrite app_nil_r.
  rewrite extract_line_nil.
  rewrite (@not_comment_by_first _ 38%N _ eq_refl eq_refl).
  pose proof (@finditer_first [] behavior [32%N] arg rest) as F.
  cbn [app length Nat.add] in F.
  rewrite (@scan_without_ampersand _ rest Hamp) in F.
  transitivity
    (map (binding_of 1)
       [{| m_start := 0;
           m_end := S (length (behavior ++ 32%N :: arg));
           m_groups := [behavior; arg] |}]); [|reflexivity].
  f_equal. apply F; try assumption; try discriminate;
    try (repeat constructor); tauto.
Qed.

(** X2: writing a binding and reading it back.  The text [&behavior arg],
    with one space, a behavior of word characters and an argument of ASCII
    word characters, yields that binding on line 1 and nothing else, and its
    diagnostics are those of the binding. *)
Theorem formatted_binding_round_trip (w : World) (behavior arg : str) :
  behavior <> [] -> Forall (fun c => is_word c = true) behavior ->
  arg <> [] -> Forall (fun c => is_ascii_word c = true) arg ->
  extract_bindings (38%N :: behavior ++ 32%N :: arg) = [(1, behavior, arg)] /\
  validate_content w (38%N :: behavior ++ 32%N :: arg) =
  check_binding w [] (1, behavior, arg).
Proof.
  intros Nb Ab Na Aa.
  pose proof (@extract_formatted behavior arg [] Nb Ab Na Aa I
                (fun H => H) (fun H => H)) as E.
  rewrite app_nil_r in E.
  split; [exact E|].
  rewrite validate_content_bindings, E. cbn [flat_map]. apply app_nil_r.
Qed.

(** X15: only the first argument is read.  On a one-line text
    [&behavior arg] followed by anything that holds no further ampersand,
    the extractor yields that one binding: further arguments and whatever
    else follows are never checked, and the diagnostics are those of the
    first argument alone. *)
Theorem only_first_argument_read (w : World) (behavior arg rest : str) :
  behavior <> [] -> Forall (fun c => is_word c = true) behavior ->
  arg <> [] -> Forall (fun c => is_ascii_word c = true) arg ->
  stops is_ascii_word rest -> ~ In 38%N rest -> ~ In 10%N rest ->
  extract_bindings (38%N :: behavior ++ 32%N :: arg ++ rest) =
  [(1, behavior, arg)] /\
  validate_content w (38%N :: behavior ++ 32%N :: arg ++ rest) =
  validate_content w (38%N :: behavior ++ 32%N :: arg).
Proof.
  intros Nb Ab Na Aa Hstop Hamp Hnl.
  pose proof (@extract_formatted behavior arg rest Nb Ab Na Aa Hstop Hamp Hnl)
    as E.
  pose proof (@extract_formatted behavior arg [] Nb Ab Na Aa I
                (fun H => H) (fun H => H)) as E0.
  rewrite app_nil_r in E0.
  split; [exact E|].
  rewrite !validate_content_bindings, E, E0. reflexivity.
Qed.

(** The shape of a match, with where it ends. *)
Lemma binding_re_maximal (s : str) (gs : list str) (n : nat) :
  match_here binding_re s = Some (gs, n) ->
  exists behavior ws arg rest,
    s = 38%N :: behavior ++ ws ++ arg ++ rest /\
    gs = [behavior; arg] /\
    n = S (length (behavior ++ ws ++ arg)) /\
    stops is_ascii_word rest.
Proof.
  unfold binding_re.
  destruct s as [|x s]; [discriminate|].
  destruct (char_eqb x 38%N) eqn:X; [|simpl; rewrite X; discriminate].
  apply N.eqb_eq in X. subst x.
  rewrite match_here_lit, match_here_plus.
  destruct (greedy is_word _ s) as [[[g1 gs1] n1]|] eqn:G1; [|discriminate].
  cbn [advance app]. intros [= <- <-].
  apply greedy_sound in G1.
  destruct G1 as (_ & _ & rest1 & m1 & -> & K1 & ->).
  rewrite match_here_plus in K1.
  destruct (greedy isspace _ rest1) as [[[g2 gs2] n2]|] eqn:G2; [|discriminate].
  injection K1 as <- <-.
  apply greedy_sound in G2.
  destruct G2 as (_ & _ & rest2 & m2 & -> & K2 & ->).
  rewrite match_here_plus in K2.
  destruct (greedy is_ascii_word _ rest2) as [[[g3 gs3] n3]|] eqn:G3;
    [|discriminate].
  injection K2 as <- <-.
  pose proof G3 as G3'.
  apply greedy_sound_maximal in G3'; [|discriminate].
  destruct G3' as (rest3 & -> & Hstop).
  apply greedy_sound in G3.
  destruct G3 as (_ & _ & rest3' & m3 & E & K3 & ->).
  apply app_inv_head in E. subst rest3'.
  injection K3 as <- <-.
  exists g1, g2, g3, rest3. cbn [app].
  repeat split; try assumption.
  rewrite !length_app, Nat.add_0_r, !Nat.add_assoc. reflexivity.
Qed.

(** X3: a match is never cut short.  The text of every match the scan of a
    line finds is the line's text from the match's start to its end, and
    the argument goes on to the end of the line or to a character that is
    not an ASCII letter, digit or underscore. *)
Theorem match_is_maximal (line : str) (m : Match) :
  In m (finditer binding_re line) ->
  exists behavior ws arg,
    m_groups m = [behavior; arg] /\
    skipn (m_start m) line =
    38%N :: behavior ++ ws ++ arg ++ skipn (m_end m) line /\
    m_end m = m_start m + S (length (behavior ++ ws ++ arg)) /\
    stops is_ascii_word (skipn (m_end m) line).
Proof.
  intros H. apply scan_In in H.
  destruct H as (k & n & Hs & He & _ & _ & M). cbn [Nat.add] in Hs.
  apply binding_re_maximal in M.
  destruct M as (behavior & ws & arg & rest & E & G & -> & Hstop).
  assert (Hrest : skipn (m_end m) line = rest).
  { rewrite He, Hs, Nat.add_comm, <- skipn_skipn, E.
    cbn [skipn].
    replace (behavior ++ ws ++ arg ++ rest)
      with ((behavior ++ ws ++ arg) ++ rest)
      by (rewrite <- !app_assoc; reflexivity).
    rewrite skipn_app, skipn_all, Nat.sub_diag. reflexivity. }
  exists behavior, ws, arg. rewrite Hrest, Hs.
  repeat split; try assumption. rewrite He, Hs. reflexivity.
Qed.

Lemma split_nl_incl (s line : str) : In line (split_nl s) -> incl line s.
Proof.
  revert line; induction s as [|c s IH]; intros line; simpl.
  - intros [<- | []]. apply incl_refl.
  - destruct (char_eqb c 10%N).
    + intros [<- | H]; [intros x []|].
      apply incl_tl, IH, H.
    + destruct (split_nl s) as [|l ls] eqn:E.
      * intros [<- | []]. apply incl_cons; [left; reflexivity | intros x []].
      * intros [<- | H].
        -- apply incl_cons; [left; reflexivity|].
           apply incl_tl, IH. left. reflexivity.
        -- apply incl_tl, IH. right. exact H.
Qed.

(** X4: a text without an ampersand has no bindings and no diagnostics. *)
Theorem no_ampersand_no_bindings (w : World) (content : str) :
  ~ In 38%N content ->
  extract_bindings content = [] /\ validate_content w content = [].
Proof.
  intros H.
  assert (E : extract_bindings content = []).
  { destruct (extract_bindings content) as [|b bs] eqn:E; [reflexivity|].
    exfalso.
    assert (Hb : In b (extract_bindings content)) by (rewrite E; left; reflexivity).
    apply extract_bindings_In in Hb.
    destruct Hb as (i & line & m & _ & Hline & _ & Hm & _).
    apply nth_error_In, split_nl_incl in Hline.
    apply scan_In in Hm. destruct Hm as (k & n & _ & _ & _ & _ & M).
    apply binding_re_sound in M.
    destruct M as (behavior & ws & arg & rest & Es & _).
    apply H, Hline.
    assert (Hin : In 38%N (skipn k line)) by (rewrite Es; left; reflexivity).
    rewrite <- (firstn_skipn k line). apply in_or_app. right. exact Hin. }
  split; [exact E|].
  rewrite validate_content_bindings, E. reflexivity.
Qed.

Lemma length_split_nl (s : str) :
  length (split_nl s) = S (count_occ N.eq_dec s 10%N).
Proof.
  induction s as [|c s IH]; [reflexivity|].
  cbn [split_nl count_occ]. unfold char_eqb.
  destruct (N.eqb_spec c 10%N) as [-> | Hc].
  - destruct (N.eq_dec 10 10) as [_ | Hn]; [|congruence].
    cbn [length]. rewrite IH. reflexivity.
  - destruct (N.eq_dec c 10) as [E | _]; [congruence|].
    destruct (split_nl s) as [|l ls]; [discriminate IH|]. exact IH.
Qed.

Lemma sorted_append (A : Type) (R : A -> A -> Prop) (l1 l2 : list A) :
  StronglySorted R l1 -> StronglySorted R l2 ->
  (forall a b, In a l1 -> In b l2 -> R a b) ->
  StronglySorted R (l1 ++ l2).
Proof.
  intros H1 H2 H. induction H1 as [|x l1 Hl1 IH Hx]; [exact H2|].
  cbn [app]. constructor.
  - apply IH. intros a b Ha Hb. apply H; [right; exact Ha | exact Hb].
  - apply Forall_app. split; [exact Hx|].
    apply Forall_forall. intros b Hb. apply H; [left; reflexivity | exact Hb].
Qed.

Lemma extract_line_number (i : nat) (line : str) (b : binding) :
  In b (extract_line [] (i, line)) -> line_of b = i.
Proof.
  rewrite extract_line_nil. destruct (is_comment line); [intros []|].
  intros H. apply in_map_iff in H. destruct H as (m & <- & _). reflexivity.
Qed.

Lemma same_line_sorted (i : nat) (l : list binding) :
  (forall b, In b l -> line_of b = i) -> StronglySorted le (map line_of l).
Proof.
  induction l as [|b l IH]; intros H; cbn [map]; constructor.
  - apply IH. intros b' Hb'. apply H. right. exact Hb'.
  - apply Forall_forall. intros n Hn. apply in_map_iff in Hn.
    destruct Hn as (b' & <- & Hb').
    rewrite (H b (or_introl eq_refl)), (H b' (or_intror Hb')). apply le_n.
Qed.

Lemma lines_sorted (start : nat) (lines : list str) :
  StronglySorted le
    (map line_of (flat_map (extract_line []) (enumerate start lines))) /\
  (forall b, In b (flat_map (extract_line []) (enumerate start lines)) ->
             start <= line_of b).
Proof.
  revert start; induction lines as [|line lines IH]; intros start.
  - split; [constructor | intros b []].
  - change (enumerate start (line :: lines))
      with ((start, line) :: enumerate (S start) lines).
    cbn [flat_map]. destruct (IH (S start)) as [Hs Hl]. split.
    + rewrite map_app. apply sorted_append.
      * apply (@same_line_sorted start). intros b. apply extract_line_number.
      * exact Hs.
      * intros a b Ha Hb. apply in_map_iff in Ha, Hb.
        destruct Ha as (ba & <- & Ha). destruct Hb as (bb & <- & Hb).
        apply extract_line_number in Ha. apply Hl in Hb. lia.
    + intros b Hb. apply in_app_or in Hb. destruct Hb as [Hb | Hb].
      * apply extract_line_number in Hb. lia.
      * apply Hl in Hb. lia.
Qed.

(** X5: line numbers.  Every extracted binding carries a line number
    between 1 and one more than the number of newline characters of the
    text, and the bindings come with their line numbers in ascending
    order. *)
Theorem line_numbers_in_range (content : str) :
  (forall b, In b (extract_bindings content) ->
             1 <= line_of b <= S (count_occ N.eq_dec content 10%N)) /\
  StronglySorted le (map line_of (extract_bindings content)).
Proof.
  split.
  - intros b Hb. apply extract_bindings_In in Hb.
    destruct Hb as (i & line & m & Hi & Hline & _ & _ & ->).
    assert (Hlt : i - 1 < length (split_nl content))
      by (apply nth_error_Some; congruence).
    rewrite length_split_nl in Hlt. unfold line_of, binding_of. cbn [fst]. lia.
  - rewrite extract_bindings_lines. apply lines_sorted.
Qed.

Lemma lstrip_split (s : str) :
  exists ws, s = ws ++ lstrip s /\ Forall (fun c => isspace c = true) ws.
Proof.
  induction s as [|c s IH]; cbn [lstrip].
  - exists []. split; [reflexivity | constructor].
  - destruct (isspace c) eqn:E.
    + destruct IH as (ws & Hs & Hall). exists (c :: ws). split.
      * cbn [app]. rewrite <- Hs. reflexivity.
      * constructor; assumption.
    + exists []. split; [reflexivity | constructor].
Qed.

Lemma lstrip_spaces (ws s : str) (x : char) :
  Forall (fun c => isspace c = true) ws -> isspace x = false ->
  lstrip (ws ++ x :: s) = x :: s.
Proof.
  intros Hall Hx. induction Hall as [|c ws Hc _ IH]; cbn [app lstrip].
  - rewrite Hx. reflexivity.
  - rewrite Hc. exact IH.
Qed.

Lemma lstrip_snoc (l : str) (x : char) :
  lstrip (l ++ [x]) =
  match lstrip l with
  | [] => if isspace x then [] else [x]
  | _ :: _ => lstrip l ++ [x]
  end.
Proof.
  induction l as [|y l IH]; cbn [app lstrip]; [reflexivity|].
  destruct (isspace y); [exact IH | reflexivity].
Qed.

Lemma rstrip_cons (x : char) (s : str) :
  rstrip (x :: s) =
  match rstrip s with
  | [] => if isspace x then [] else [x]
  | _ :: _ => x :: rstrip s
  end.
Proof.
  unfold rstrip. cbn [rev]. rewrite lstrip_snoc.
  destruct (lstrip (rev s)) as [|y t]; [destruct (isspace x); reflexivity|].
  rewrite rev_app_distr. cbn [rev app].
  destruct (rev t ++ [y]) as [|z u] eqn:E; [|reflexivity].
  apply app_eq_nil in E. destruct E as [_ E]. discriminate.
Qed.

(** Stripping on the right leaves a prefix. *)
Lemma rstrip_prefix (s : str) : exists t, s = rstrip s ++ t.
Proof.
  induction s as [|x s IH]; [exists []; reflexivity|].
  rewrite rstrip_cons. destruct IH as (t & Ht).
  destruct (rstrip s) as [|y u].
  - destruct (isspace x); [exists (x :: s) | exists s]; reflexivity.
  - exists t. cbn [app]. rewrite Ht at 1. reflexivity.
Qed.

(** Stripping on the right does not reach two leading characters that are
    not white space. *)
Lemma startswith_rstrip (s : str) (a b : char) :
  isspace a = false -> isspace b = false ->
  startswith (rstrip s) [a; b] = startswith s [a; b].
Proof.
  intros Ha Hb.
  destruct (startswith s [a; b]) eqn:E.
  - apply startswith_prefix in E. destruct E as (post & ->).
    cbn [app]. rewrite (rstrip_cons a), (rstrip_cons b), Hb.
    destruct (rstrip post); simpl; unfold char_eqb; rewrite !N.eqb_refl;
      reflexivity.
  - destruct (startswith (rstrip s) [a; b]) eqn:E'; [|reflexivity].
    apply startswith_prefix in E'. destruct E' as (post & Hp).
    destruct (rstrip_prefix s) as (t & Ht). rewrite Hp in Ht.
    rewrite Ht in E. cbn [app startswith] in E. unfold char_eqb in E.
    rewrite !N.eqb_refl in E. discriminate.
Qed.

(** The skip test looks at what follows the leading white space and at
    nothing else. *)
Lemma is_comment_lstrip (line : str) :
  is_comment line =
  startswith (lstrip line) (lit "//") || startswith (lstrip line) (lit "/*").
Proof.
  unfold is_comment, strip.
  change (lit "//") with [47%N; 47%N]. change (lit "/*") with [47%N; 42%N].
  rewrite !startswith_rstrip by reflexivity. reflexivity.
Qed.

(** X6: the skip test.  A line is skipped exactly when it is white space,
    possibly none, followed by [//] or [/*]; what comes after the marker,
    trailing white space included, plays no part. *)
Theorem comment_test_spec (line : str) :
  is_comment line = true <->
  exists ws rest,
    Forall (fun c => isspace c = true) ws /\
    (line = ws ++ lit "//" ++ rest \/ line = ws ++ lit "/*" ++ rest).
Proof.
  rewrite is_comment_lstrip, orb_true_iff, !startswith_prefix. split.
  - destruct (lstrip_split line) as (ws & Hs & Hall).
    intros [(rest & E) | (rest & E)]; exists ws, rest;
      (split; [exact Hall|]); [left | right];
      rewrite <- E; exact Hs.
  - intros (ws & rest & Hall & [-> | ->]); [left | right]; exists rest;
      apply lstrip_spaces; try assumption; reflexivity.
Qed.

End Scanning.

Section Verdicts.
Context {U : UnicodeData}.
Variable w : World.

Lemma behaviors_differ (a b : string) :
  str_eqb (lit a) (lit b) = false -> lit a = lit b -> False.
Proof. intros H E. apply str_eqb_neq in H. exact (H E). Qed.

(** One binding: it passes the checks exactly when it adds no diagnostic. *)
Lemma check_binding_nil (b : binding) :
  check_binding w [] b = [] <-> acceptable b.
Proof.
  destruct b as [[line_num behavior] arg]. unfold check_binding, acceptable.
  destruct (str_eqb behavior (lit "kp")) eqn:E1;
    [|destruct (str_eqb behavior (lit "mkp")) eqn:E2;
      [|destruct (str_eqb behavior (lit "msc")) eqn:E3;
        [|destruct (str_eqb behavior (lit "mmv")) eqn:E4]]].
  - apply str_eqb_eq in E1. subst behavior.
    destruct (mem arg VALID_KEYCODES) eqn:M; cbn [negb].
    + apply mem_In in M. split; [|reflexivity]. intros _.
      repeat split; intros H; try exact M;
        exfalso; revert H; apply behaviors_differ; reflexivity.
    + apply mem_not_In in M. split.
      * destruct (contains arg (lit "VOL_MUTE"));
          destruct (contains arg (lit "VOL_DOWN")); discriminate.
      * intros (H & _). destruct (M (H eq_refl)).
  - apply str_eqb_eq in E2. subst behavior.
    destruct (mem arg valid_mkp) eqn:M; cbn [negb].
    + apply mem_In in M. split; [|reflexivity]. intros _.
      repeat split; intros H; try exact M;
        exfalso; revert H; apply behaviors_differ; reflexivity.
    + apply mem_not_In in M. split; [discriminate|].
      intros (_ & H & _). destruct (M (H eq_refl)).
  - apply str_eqb_eq in E3. subst behavior.
    destruct (mem arg valid_msc) eqn:M; cbn [negb].
    + apply mem_In in M. split; [|reflexivity]. intros _.
      repeat split; intros H; try exact M;
        exfalso; revert H; apply behaviors_differ; reflexivity.
    + apply mem_not_In in M. split; [discriminate|].
      intros (_ & _ & H & _). destruct (M (H eq_refl)).
  - apply str_eqb_eq in E4. subst behavior.
    destruct (mem arg valid_mmv) eqn:M; cbn [negb].
    + apply mem_In in M. split; [|reflexivity]. intros _.
      repeat split; intros H; try exact M;
        exfalso; revert H; apply behaviors_differ; reflexivity.
    + apply mem_not_In in M. split; [discriminate|].
      intros (_ & _ & _ & H). destruct (M (H eq_refl)).
  - apply str_eqb_neq in E1, E2, E3, E4.
    split; [|reflexivity]. intros _. repeat split; intros H; contradiction.
Qed.

(** One binding adds at most one diagnostic, and that one starts with the
    number of the binding's line. *)
Lemma check_binding_one (b : binding) :
  check_binding w [] b = [] \/
  exists d, check_binding w [] b = [d] /\
            startswith d (lit "Line " ++ str_of_nat (line_of b) ++ lit ": ") = true.
Proof.
  destruct b as [[line_num behavior] arg].
  unfold check_binding, invalid_msg, line_of. cbn [fst].
  repeat match goal with
         | |- context [if ?c then _ else _] => destruct c
         end;
    try (left; reflexivity);
    right; eexists; (split; [reflexivity|]);
    apply startswith_prefix; eexists; cbn [app];
    try change (lit ": Unknown keycode '")
      with (lit ": " ++ lit "Unknown keycode '");
    rewrite <- ?app_assoc; reflexivity.
Qed.

(** X7: the verdict.  A text gets no diagnostic exactly when every
    extracted binding passes the check of its behavior: a [kp] argument is
    in the keycode set, an [mkp], [msc] or [mmv] argument in the set of its
    behavior. *)
Theorem no_diagnostic_iff_acceptable (content : str) :
  validate_content w content = [] <->
  Forall acceptable (extract_bindings content).
Proof.
  rewrite validate_content_bindings.
  induction (extract_bindings content) as [|b bs IH]; cbn [flat_map].
  - split; [constructor | reflexivity].
  - split.
    + intros H. apply app_eq_nil in H. destruct H as [Hb Hbs].
      constructor; [apply check_binding_nil, Hb | apply IH, Hbs].
    + intros H. inversion H as [|? ? Hb Hbs]; subst.
      apply check_binding_nil in Hb. rewrite Hb. apply IH, Hbs.
Qed.

(** X8: where a diagnostic comes from.  Every diagnostic is the one
    diagnostic of an extracted binding that fails its check, and it starts
    with "Line <n>: ", the number of that binding's line. *)
Theorem diagnostic_provenance (content : str) (d : str) :
  In d (validate_content w content) ->
  exists b,
    In b (extract_bindings content) /\
    ~ acceptable b /\
    check_binding w [] b = [d] /\
    startswith d (lit "Line " ++ str_of_nat (line_of b) ++ lit ": ") = true.
Proof.
  rewrite validate_content_bindings, in_flat_map.
  intros (b & Hb & Hd). exists b. split; [exact Hb|].
  destruct (check_binding_one b) as [E | (d' & E & Hp)].
  - rewrite E in Hd. destruct Hd.
  - rewrite E in Hd. destruct Hd as [<- | []].
    repeat split; try assumption.
    intros Hacc. apply check_binding_nil in Hacc. congruence.
Qed.

(** X9: never more diagnostics than bindings. *)
Theorem diagnostics_bounded (content : str) :
  length (validate_content w content) <= length (extract_bindings content).
Proof.
  rewrite validate_content_bindings.
  induction (extract_bindings content) as [|b bs IH]; cbn [flat_map length].
  - apply le_n.
  - rewrite length_app.
    destruct (check_binding_one b) as [E | (d & E & _)]; rewrite E;
      cbn [length]; lia.
Qed.

(** X10: [kp] takes the mouse codes too.  An argument that [mkp], [msc] or
    [mmv] accepts is in the keycode set, so a [kp] binding with it adds no
    diagnostic. *)
Theorem kp_accepts_mouse_codes (errors : list str) (line_num : nat)
  (arg : str) :
  In arg (valid_mkp ++ valid_msc ++ valid_mmv) ->
  In arg VALID_KEYCODES /\
  check_binding w errors (line_num, lit "kp", arg) = errors.
Proof.
  intros H.
  assert (M : mem arg VALID_KEYCODES = true).
  { apply mem_In in H. unfold mem in *. apply existsb_exists in H.
    destruct H as (k & Hk & E). apply str_eqb_eq in E. subst k.
    apply existsb_exists. exists arg. split; [|apply str_eqb_refl].
    assert (I : incl (valid_mkp ++ valid_msc ++ valid_mmv) VALID_KEYCODES).
    { intros k Hin. apply mem_In.
      repeat (destruct Hin as [<- | Hin]; [vm_compute; reflexivity|]).
      destruct Hin. }
    apply I, Hk. }
  split; [apply mem_In, M|].
  unfold check_binding. rewrite str_eqb_refl, M. reflexivity.
Qed.

Lemma argv_cases (argv : list str) :
  length argv < 2 \/ exists prog path rest, argv = prog :: path :: rest.
Proof.
  destruct argv as [|prog [|path rest]]; [left; simpl; lia | left; simpl; lia|].
  right. exists prog, path, rest. reflexivity.
Qed.

Lemma reporting_outcome (t : list event) (lines : list str) (code : Z) :
  snd (reporting w t lines code) =
  if takes_all w [] lines then Exit code else Raise.
Proof. reflexivity. Qed.

Lemma report_code_acceptable (content : str) :
  report_code (validate_content w content) = 0%Z <->
  Forall acceptable (extract_bindings content).
Proof.
  rewrite <- no_diagnostic_iff_acceptable.
  destruct (validate_content w content); cbn [report_code];
    split; congruence.
Qed.

Lemma report_code_values (errors : list str) :
  report_code errors = 0%Z /\ errors = [] \/
  report_code errors = 1%Z /\ errors <> [].
Proof.
  destruct errors; [left | right]; split; try reflexivity; discriminate.
Qed.

(** X11: a file that is there and cannot be read.  [main] asks whether the
    path exists, tries to read it, and ends with the exception of the read:
    nothing is printed and no exit status is chosen by the script. *)
Theorem unreadable_file_raises (prog path : str) (rest : list str) :
  path_exists w path = Some true ->
  read_text w path = None ->
  run (main w (prog :: path :: rest)) = ([Exists path; ReadText path], Raise) /\
  printed (trace (main w (prog :: path :: rest))) = [].
Proof.
  intros He Hr. unfold trace. rewrite main_run, He, Hr. split; reflexivity.
Qed.

(** X12: how a run ends.  [main] never returns: it leaves with
    [sys.exit(0)] or [sys.exit(1)] or ends with an exception.  It leaves
    with 0 exactly when a path was given, the file exists and was read, every
    binding of its content passes its check and standard output takes the
    confirmation line.  It ends with an exception exactly when [exists()]
    raises, or the read raises, or standard output refuses one of the lines
    the run sets out to print. *)
Theorem exit_status (argv : list str) :
  (outcome (main w argv) = Exit 0%Z <->
   exists prog path rest content,
     argv = prog :: path :: rest /\
     path_exists w path = Some true /\
     read_text w path = Some content /\
     Forall acceptable (extract_bindings content) /\
     stdout_write w [] valid_msg = true) /\
  (outcome (main w argv) = Raise <->
   (length argv < 2 /\ stdout_write w [] usage_msg = false) \/
   exists prog path rest,
     argv = prog :: path :: rest /\
     (path_exists w path = None \/
      (path_exists w path = Some false /\
       stdout_write w [] (lit "Error: File not found: " ++ path_str w path) =
       false) \/
      (path_exists w path = Some true /\ read_text w path = None) \/
      (exists content,
         path_exists w path = Some true /\
         read_text w path = Some content /\
         takes_all w [] (report_lines (validate_content w content)) =
         false))) /\
  (outcome (main w argv) = Exit 0%Z \/
   outcome (main w argv) = Exit 1%Z \/
   outcome (main w argv) = Raise).
Proof.
  unfold outcome. rewrite main_run.
  destruct (argv_cases argv) as [Hshort | (prog & path & rest & ->)].
  - assert (E : match argv with
                | _ :: path :: _ =>
                    match path_exists w path with
                    | None => ([Exists path], Raise)
                    | Some false =>
                        reporting w [Exists path]
                          [lit "Error: File not found: " ++ path_str w path] 1%Z
                    | Some true =>
                        match read_text w path with
                        | None => ([Exists path; ReadText path], Raise)
                        | Some content =>
                            reporting w [Exists path; ReadText path]
                              (report_lines (validate_content w content))
                              (report_code (validate_content w content))
                        end
                    end
                | _ => reporting w [] [usage_msg] 1%Z
                end = reporting w [] [usage_msg] 1%Z).
    { destruct argv as [|prog [|path rest]]; try reflexivity.
      simpl in Hshort. lia. }
    rewrite E, reporting_outcome. cbn [takes_all]. rewrite andb_true_r.
    destruct (stdout_write w [] usage_msg) eqn:Hu.
    + split; [|split].
      * split; [discriminate|]. intros (? & ? & ? & ? & -> & _).
        simpl in Hshort. lia.
      * split; [discriminate|].
        intros [[_ H] | (? & ? & ? & -> & _)]; [discriminate|].
        simpl in Hshort. lia.
      * right. left. reflexivity.
    + split; [|split].
      * split; [discriminate|]. intros (? & ? & ? & ? & -> & _).
        simpl in Hshort. lia.
      * split; [|reflexivity]. intros _. left. split; [exact Hshort|reflexivity].
      * right. right. reflexivity.
  - destruct (path_exists w path) as [[|]|] eqn:He.
    + destruct (read_text w path) as [content|] eqn:Hr.
      * rewrite reporting_outcome.
        pose proof (report_code_acceptable content) as V.
        destruct (report_code_values (validate_content w content))
          as [[Hc Hv] | [Hc Hv]]; rewrite Hc in *.
        -- rewrite Hv. cbn [report_lines takes_all]. rewrite andb_true_r.
           destruct (stdout_write w [] valid_msg) eqn:Hp.
           ++ split; [|split].
              ** split; [|reflexivity]. intros _.
                 exists prog, path, rest, content.
                 repeat split; try assumption. apply V. reflexivity.
              ** split; [discriminate|].
                 intros [[H _] | (? & ? & ? & [= _ <- _] & H)];
                   [simpl in H; lia|].
                 destruct H as [H | [[H _] | [[_ H] | (c & _ & H1 & H2)]]];
                   try congruence;
                   try (assert (c = content) by congruence; subst c;
                        rewrite Hv in H2; cbn [report_lines takes_all] in H2;
                        rewrite andb_true_r in H2; congruence).
              ** left. reflexivity.
           ++ split; [|split].
              ** split; [discriminate|].
                 intros (? & ? & ? & c & [= _ <- _] & _ & _ & _ & H).
                 congruence.
              ** split; [|reflexivity]. intros _. right.
                 exists prog, path, rest. split; [reflexivity|].
                 right. right. right. exists content.
                 repeat split; try assumption.
                 rewrite Hv. cbn [report_lines takes_all].
                 rewrite andb_true_r. exact Hp.
              ** right. right. reflexivity.
        -- destruct (takes_all w [] (report_lines (validate_content w content)))
             eqn:Hp.
           ++ split; [|split].
              ** split; [discriminate|].
                 intros (? & ? & ? & c & [= _ <- _] & _ & R & A & _).
                 assert (c = content) by congruence. subst c.
                 apply V in A. discriminate.
              ** split; [discriminate|].
                 intros [[H _] | (? & ? & ? & [= _ <- _] & H)];
                   [simpl in H; lia|].
                 destruct H as [H | [[H _] | [[_ H] | (c & _ & H1 & H2)]]];
                   try congruence;
                   try (assert (c = content) by congruence; subst c;
                        congruence).
              ** right. left. reflexivity.
           ++ split; [|split].
              ** split; [discriminate|].
                 intros (? & ? & ? & c & [= _ <- _] & _ & R & A & _).
                 assert (c = content) by congruence. subst c.
                 apply V in A. discriminate.
              ** split; [|reflexivity]. intros _. right.
                 exists prog, path, rest. split; [reflexivity|].
                 right. right. right. exists content. auto.
              ** right. right. reflexivity.
      * cbn [snd]. split; [|split].
        -- split; [discriminate|].
           intros (? & ? & ? & c & [= _ <- _] & _ & R & _). congruence.
        -- split; [|reflexivity]. intros _. right.
           exists prog, path, rest. split; [reflexivity|].
           right. right. left. auto.
        -- right. right. reflexivity.
    + rewrite reporting_outcome. cbn [takes_all]. rewrite andb_true_r.
      destruct (stdout_write w [] _) eqn:Hp.
      * split; [|split].
        -- split; [discriminate|].
           intros (? & ? & ? & c & [= _ <- _] & E & _). congruence.
        -- split; [discriminate|].
           intros [[H _] | (? & ? & ? & [= _ <- _] & H)];
             [simpl in H; lia|].
           destruct H as [H | [[_ H] | [[H _] | (c & H & _)]]];
             congruence.
        -- right. left. reflexivity.
      * split; [|split].
        -- split; [discriminate|].
           intros (? & ? & ? & c & [= _ <- _] & E & _). congruence.
        -- split; [|reflexivity]. intros _. right.
           exists prog, path, rest. split; [reflexivity|].
           right. left. auto.
        -- right. right. reflexivity.
    + cbn [snd]. split; [|split].
      * split; [discriminate|].
        intros (? & ? & ? & c & [= _ <- _] & E & _). congruence.
      * split; [|reflexivity]. intros _. right.
        exists prog, path, rest. split; [reflexivity|]. left. exact He.
      * right. right. reflexivity.
Qed.

Lemma accepted_same (w' : World) (before lines : list str) :
  (forall b l, stdout_write w b l = stdout_write w' b l) ->
  accepted w before lines = accepted w' before lines /\
  takes_all w before lines = takes_all w' before lines.
Proof.
  intros H. revert before; induction lines as [|l ls IH]; intros before;
    cbn [accepted takes_all]; [split; reflexivity|].
  rewrite H. destruct (IH (before ++ [l])) as [-> ->]. split; reflexivity.
Qed.

End Verdicts.

(** X13: what a run depends on.  Two runs whose command lines agree on the
    path argument, on machines that agree on that one path (whether it
    exists, what reading it gives, how it prints) and on what standard
    output takes, leave the same trace and end the same way: the program
    name, further arguments, every other file and the iteration order of
    sets have no influence. *)
Theorem main_depends_on_path_only (U : UnicodeData) (w w' : World)
  (argv argv' : list str) (path : str) :
  nth_error argv 1 = Some path ->
  nth_error argv' 1 = Some path ->
  path_exists w path = path_exists w' path ->
  read_text w path = read_text w' path ->
  path_str w path = path_str w' path ->
  (forall before line,
     stdout_write w before line = stdout_write w' before line) ->
  sets_ok w -> sets_ok w' ->
  run (main w argv) = run (main w' argv').
Proof.
  intros Ha Ha' He Hr Hs Hout Hw Hw'.
  destruct argv as [|prog [|p rest]]; try discriminate.
  destruct argv' as [|prog' [|p' rest']]; try discriminate.
  cbn [nth_error] in Ha, Ha'. injection Ha as ->. injection Ha' as ->.
  rewrite !main_run, <- He, <- Hr, <- Hs.
  assert (R : forall t lines code,
             reporting w t lines code = reporting w' t lines code).
  { intros t lines code. unfold reporting.
    destruct (@accepted_same w w' [] lines Hout) as [-> ->]. reflexivity. }
  destruct (path_exists w path) as [[|]|]; [|apply R|reflexivity].
  destruct (read_text w path) as [content|]; [|reflexivity].
  rewrite (@validate_content_any_order _ w w' content Hw Hw'). apply R.
Qed.

Section Lines.
Context {U : UnicodeData}.

Lemma split_nl_nonempty (s : str) : split_nl s <> [].
Proof.
  destruct s as [|c s]; simpl; [discriminate|].
  destruct (char_eqb c 10%N); [discriminate|].
  destruct (split_nl s); discriminate.
Qed.

(** Splitting a text at one of its newlines. *)
Lemma split_nl_app (a b : str) :
  split_nl (a ++ 10%N :: b) = split_nl a ++ split_nl b.
Proof.
  induction a as [|c a IH]; [reflexivity|].
  cbn [app split_nl]. rewrite IH.
  destruct (char_eqb c 10%N); [reflexivity|].
  pose proof (split_nl_nonempty a) as N.
  destruct (split_nl a) as [|l ls]; [congruence | reflexivity].
Qed.

Lemma enumerate_app (A : Type) (start : nat) (l1 l2 : list A) :
  enumerate start (l1 ++ l2) =
  enumerate start l1 ++ enumerate (length l1 + start) l2.
Proof.
  revert start; induction l1 as [|x l1 IH]; intros start; [reflexivity|].
  change (enumerate start ((x :: l1) ++ l2))
    with ((start, x) :: enumerate (S start) (l1 ++ l2)).
  rewrite IH. cbn [length]. rewrite Nat.add_succ_comm. reflexivity.
Qed.

Lemma extract_moved (k start : nat) (lines : list str) :
  flat_map (extract_line []) (enumerate (k + start) lines) =
  map (moved k) (flat_map (extract_line []) (enumerate start lines)).
Proof.
  revert start; induction lines as [|line lines IH]; intros start;
    [reflexivity|].
  change (enumerate (k + start) (line :: lines))
    with ((k + start, line) :: enumerate (S (k + start)) lines).
  change (enumerate start (line :: lines))
    with ((start, line) :: enumerate (S start) lines).
  cbn [flat_map]. rewrite map_app, plus_n_Sm, IH. f_equal.
  rewrite !extract_line_nil. destruct (is_comment line); [reflexivity|].
  rewrite map_map. reflexivity.
Qed.

(** X14: lines are read one by one.  The bindings of two texts joined by a
    newline are those of the first followed by those of the second, moved
    down by the number of lines of the first; so the diagnostics of a text
    stay, in place and unchanged, when lines are added behind it. *)
Theorem extract_joined (w : World) (a b : str) :
  extract_bindings (a ++ 10%N :: b) =
  extract_bindings a ++
  map (moved (length (split_nl a))) (extract_bindings b) /\
  validate_content w (a ++ 10%N :: b) =
  validate_content w a ++
  flat_map (check_binding w [])
           (map (moved (length (split_nl a))) (extract_bindings b)).
Proof.
  assert (E : extract_bindings (a ++ 10%N :: b) =
              extract_bindings a ++
              map (moved (length (split_nl a))) (extract_bindings b)).
  { rewrite !extract_bindings_lines, split_nl_app, enumerate_app, flat_map_app.
    rewrite extract_moved. reflexivity. }
  split; [exact E|].
  rewrite !validate_content_bindings, E, flat_map_app. reflexivity.
Qed.

End Lines.

End Further.

(** ** The further properties at work *)

Module FurtherRuns.
Import Py Re Eff Keymap Vocabulary Terms PyFacts KeymapFacts Sample Further.

Local Open Scope string_scope.
Local Open Scope list_scope.

#[local] Existing Instance latin1.

Lemma plain_sets_ok (name content : str) : sets_ok (world name content).
Proof. intros l. apply Permutation_refl. Qed.

Lemma reversed_sets_ok (name content : str) : sets_ok (rev_world name content).
Proof. intros l. apply Permutation_sym, Permutation_rev. Qed.

(** On [  &kp A &kp B] the first binding is [kp A]; the rest follows. *)
Lemma first_binding_found_run :
  map (binding_of 1) (finditer binding_re (lit "  &kp A &kp B")) =
  (1, lit "kp", lit "A") ::
  map (binding_of 1) (finditer binding_re (lit " &kp B")).
Proof.
  refine (proj2 (@first_binding_found latin1 1 (lit "  ") (lit "kp") (lit " ")
                   (lit "A") (lit " &kp B") _ _ _ _ _ _ _ _ _)).
  - intros H. vm_compute in H. intuition discriminate.
  - discriminate.
  - repeat constructor.
  - discriminate.
  - repeat constructor.
  - repeat constructor.
  - discriminate.
  - repeat constructor.
  - reflexivity.
Defined.

(** [&kp C_MUTE] reads back as the binding it writes. *)
Lemma formatted_binding_round_trip_run :
  extract_bindings (lit "&kp C_MUTE") = [(1, lit "kp", lit "C_MUTE")].
Proof.
  refine (proj1 (@formatted_binding_round_trip latin1
                   (world (lit "corne.keymap") []) (lit "kp") (lit "C_MUTE")
                   _ _ _ _)).
  - discriminate.
  - repeat constructor.
  - discriminate.
  - repeat constructor.
Defined.

(** The match of [&kp AB;] ends before the semicolon. *)
Lemma match_is_maximal_run :
  exists behavior ws arg,
    [lit "kp"; lit "AB"] = [behavior; arg] /\
    skipn 0 (lit "&kp AB;") = 38%N :: behavior ++ ws ++ arg ++ skipn 6 (lit "&kp AB;") /\
    6 = 0 + S (length (behavior ++ ws ++ arg)) /\
    stops is_ascii_word (skipn 6 (lit "&kp AB;")).
Proof.
  refine (@match_is_maximal latin1 (lit "&kp AB;")
            {| m_start := 0; m_end := 6; m_groups := [lit "kp"; lit "AB"] |} _).
  vm_compute. left. reflexivity.
Defined.

(** A text of two lines without an ampersand. *)
Lemma no_ampersand_no_bindings_run :
  validate_content (world (lit "corne.keymap") []) (lit "keymap {" ++ 10%N :: lit "};") = [].
Proof.
  refine (proj2 (@no_ampersand_no_bindings latin1 (world (lit "corne.keymap") [])
                   (lit "keymap {" ++ 10%N :: lit "};") _)).
  intros H. vm_compute in H. intuition discriminate.
Defined.

(** The diagnostic of [&kp ZZZZ] comes from that binding. *)
Lemma diagnostic_provenance_run :
  exists b,
    In b (extract_bindings (lit "&kp ZZZZ")) /\
    ~ acceptable b /\
    check_binding (world (lit "corne.keymap") []) [] b =
    [lit "Line 1: Unknown keycode 'ZZZZ'"] /\
    startswith (lit "Line 1: Unknown keycode 'ZZZZ'")
               (lit "Line " ++ str_of_nat (line_of b) ++ lit ": ") = true.
Proof.
  refine (@diagnostic_provenance latin1 (world (lit "corne.keymap") [])
            (lit "&kp ZZZZ") (lit "Line 1: Unknown keycode 'ZZZZ'") _).
  vm_compute. left. reflexivity.
Defined.

(** In [&mt LSHFT ZZZZ] the second argument is not looked at. *)
Lemma only_first_argument_read_run :
  extract_bindings (lit "&mt LSHFT ZZZZ") = [(1, lit "mt", lit "LSHFT")].
Proof.
  refine (proj1 (@only_first_argument_read latin1
                   (world (lit "corne.keymap") []) (lit "mt") (lit "LSHFT")
                   (lit " ZZZZ") _ _ _ _ _ _ _)).
  - discriminate.
  - repeat constructor.
  - discriminate.
  - repeat constructor.
  - reflexivity.
  - intros H. vm_compute in H. intuition discriminate.
  - intros H. vm_compute in H. intuition discriminate.
Defined.

(** [&kp LCLK] passes. *)
Lemma kp_accepts_mouse_codes_run :
  check_binding (world (lit "corne.keymap") []) [] (1, lit "kp", lit "LCLK") = [].
Proof.
  refine (proj2 (@kp_accepts_mouse_codes (world (lit "corne.keymap") []) [] 1
                   (lit "LCLK") _)).
  left. reflexivity.
Defined.

(** A run on a locked file. *)
Lemma unreadable_file_raises_run :
  run (main (locked_file (lit "corne.keymap"))
            [lit "validate_keymap.py"; lit "corne.keymap"]) =
  ([Exists (lit "corne.keymap"); ReadText (lit "corne.keymap")], Raise).
Proof.
  refine (proj1 (@unreadable_file_raises latin1 (locked_file (lit "corne.keymap"))
                   (lit "validate_keymap.py") (lit "corne.keymap") [] _ _)).
  - vm_compute. reflexivity.
  - reflexivity.
Defined.

(** Two runs on [&mkp MB9] that differ in all that does not count. *)
Lemma main_depends_on_path_only_run :
  run (main (world (lit "corne.keymap") (lit "&mkp MB9"))
            [lit "validate_keymap.py"; lit "corne.keymap"]) =
  run (main (rev_world (lit "corne.keymap") (lit "&mkp MB9"))
            [lit "python3"; lit "corne.keymap"; lit "--verbose"]).
Proof.
  refine (@main_depends_on_path_only latin1
            (world (lit "corne.keymap") (lit "&mkp MB9"))
            (rev_world (lit "corne.keymap") (lit "&mkp MB9"))
            [lit "validate_keymap.py"; lit "corne.keymap"]
            [lit "python3"; lit "corne.keymap"; lit "--verbose"]
            (lit "corne.keymap") _ _ _ _ _ _
            (plain_sets_ok _ _) (reversed_sets_ok _ _));
    reflexivity.
Defined.

End FurtherRuns.
